(** * circularbuffer: a fixed-capacity ring buffer with eviction

    A shallow embedding of the Go package [circularbuffer] and the proofs of
    its cursor invariants, its FIFO/LIFO behaviour and its eviction policy.

    The repository holds three revisions of the buffer:
    - [CB]     : src/circularbuffer.go ([Evict] callback, [NBPush] has no result);
    - [Rev.P1] : src/unnamed/part_001  ([NBPush] returns the evicted item,
                 [Get] also writes nil at [pos], [Length]);
    - [Rev.P2] : src/unnamed/part_002  ([NBPush] returns the evicted item, [Length]);
    and their tests, src/unnamed/part_000, written against [CB].

    Conventions of the embedding:
    - a Go [uint] is a [Z] in [0, 2^64) (a 64-bit platform); additions and
      subtractions wrap, and [x % 0] panics;
    - [interface{}] is [option A], with [None] for Go's [nil];
    - a slice is a [list]; an access outside it is a run-time panic, and
      [make] panics when the length does not fit an [int];
    - [chan bool] is its queue of pending values and its capacity;
    - the [Evict] callback is a function on a state [W] of the client's;
    - a call either returns ([Done]), panics ([Panic]) or waits for ever on
      the channel when no other goroutine runs ([Block]);
    - every method body runs under [b.lock], so a body is one atomic
      transition of the buffer; the receive on [avail] that precedes the
      lock in [Get] and [Pop] is a transition of its own ([acquire]), and
      [CB.running] interleaves the transitions of several goroutines;
    - [CB.duo_run] is the producer and the consumer of the asynchronous
      tests, for any values and any sequence of [Get] and [Pop] calls. *)

From Stdlib Require Import ZArith String Lia.
From stdpp Require Import base list.

Local Open Scope Z_scope.

(** ** Outcomes of a call *)

Inductive outcome (R : Type) : Type :=
| Done (r : R)
| Panic (msg : string)
| Block.

Arguments Done {R} r.
Arguments Panic {R} msg.
Arguments Block {R}.

Definition bind {R S : Type} (m : outcome R) (k : R -> outcome S) : outcome S :=
  match m with
  | Done r => k r
  | Panic msg => Panic msg
  | Block => Block
  end.

Notation "'let*' x ':=' m 'in' k" := (bind m (fun x => k))
  (at level 10, x name, m at level 100, k at level 200).

Definition is_panic {R : Type} (m : outcome R) : bool :=
  match m with Panic _ => true | _ => false end.

(** ** Go's [uint] *)

Definition uint_modulus : Z := 2 ^ 64.
Definition max_int : Z := 2 ^ 63 - 1.

Definition uadd (x y : Z) : Z := (x + y) mod uint_modulus.
Definition usub (x y : Z) : Z := (x - y) mod uint_modulus.

(** [x % y]: division by zero is a run-time panic. *)
Definition urem (x y : Z) : outcome Z :=
  if y =? 0 then Panic "integer divide by zero" else Done (x mod y).

(** ** Slices of [interface{}]

    An [interface{}] holding a value of [A] is [Some a]; Go's [nil] is
    [Nil]. *)

Abbreviation Nil := None (only parsing).

Section Slices.
  Context {T : Type}.

(** [make([]T, n)]: the length must fit Go's [int]. *)
Definition make_slice (zero : T) (n : Z) : outcome (list T) :=
  if (0 <=? n) && (n <=? max_int)
  then Done (replicate (Z.to_nat n) zero)
  else Panic "makeslice: len out of range".

(** [l[i]] *)
Definition index (l : list T) (i : Z) : outcome T :=
  match l !! Z.to_nat i with
  | Some x => Done x
  | None => Panic "index out of range"
  end.

(** [l[i] = x] *)
Definition store (l : list T) (i : Z) (x : T) : outcome (list T) :=
    if i <? Z.of_nat (length l)
    then Done (<[Z.to_nat i := x]> l)
    else Panic "index out of range".
  End Slices.

(** ** Buffered channels *)

Record chan (T : Type) : Type := mkChan { queue : list T; cap : Z }.
Arguments mkChan {T} queue cap.
Arguments queue {T} c.
Arguments cap {T} c.

Section Channels.
  Context {T : Type}.

(** [make(chan T, n)] *)
Definition make_chan (n : Z) : outcome (chan T) :=
  if (0 <=? n) && (n <=? max_int)
  then Done (mkChan [] n)
  else Panic "makechan: size out of range".

(** [len(c)] *)
Definition chan_len (c : chan T) : Z := Z.of_nat (length (queue c)).

(** [select { case c <- x: ... default: ... }]: [None] is the default
    branch, taken when the send would block. *)
Definition try_send (c : chan T) (x : T) : option (chan T) :=
  if chan_len c <? cap c then Some (mkChan (queue c ++ [x]) (cap c)) else None.

(** [<-c]: [None] when the receive has to wait. *)
Definition recv (c : chan T) : option (T * chan T) :=
    match queue c with
    | x :: q => Some (x, mkChan q (cap c))
    | [] => None
    end.
  End Channels.

(** ** src/circularbuffer.go *)

Module CB.
Section WithTypes.
  (** [A]: the non-nil values an [interface{}] can hold; [W]: the state the
      [Evict] callback acts on. *)
  Context {A W : Type}.

Abbreviation iface := (option A).

Record CircularBuffer : Type := mkCB {
  start : Z;               (* idx of first used cell *)
  pos : Z;                 (* idx of first unused cell *)
  buffer : list iface;
  size : Z;
  avail : chan bool;       (* poor man's semaphore *)
  Evict : option (iface -> W -> W)
}.

Definition NewCircularBuffer (n : Z) : outcome CircularBuffer :=
  let* buf := make_slice Nil n in
  let* ch := make_chan n in
  Done (mkCB 0 0 buf n ch None).

(** [c.Evict = f] *)
Definition set_Evict (f : option (iface -> W -> W)) (b : CircularBuffer) : CircularBuffer :=
  mkCB (start b) (pos b) (buffer b) (size b) (avail b) f.

Definition NBPush (v : iface) (b : CircularBuffer) (w : W) : outcome (CircularBuffer * W) :=
  let* buf1 := store (buffer b) (pos b) v in
  let* pos1 := urem (uadd (pos b) 1) (size b) in
  if pos1 =? start b then
    let* evictv := index buf1 (start b) in
    let* buf2 := store buf1 (start b) Nil in
    let* start1 := urem (uadd (start b) 1) (size b) in
    let b' := mkCB start1 pos1 buf2 (size b) (avail b) (Evict b) in
    match Evict b with
    | Some f => Done (b', f evictv w)
    | None => Done (b', w)
    end
  else
    match try_send (avail b) true with
    | Some ch => Done (mkCB (start b) pos1 buf1 (size b) ch (Evict b), w)
    | None => Panic "Sending to avail channel must never block"
    end.

(** [_ = <-b.avail], before the lock is taken. *)
Definition acquire (b : CircularBuffer) : outcome CircularBuffer :=
  match recv (avail b) with
  | Some (_, ch) => Done (mkCB (start b) (pos b) (buffer b) (size b) ch (Evict b))
  | None => Block
  end.

(** The body of [Get] under the lock. *)
Definition Get_locked (b : CircularBuffer) : outcome (iface * CircularBuffer) :=
  if start b =? pos b then Panic "Trying to get from empty buffer"
  else
    let* v := index (buffer b) (start b) in
    let* start1 := urem (uadd (start b) 1) (size b) in
    Done (v, mkCB start1 (pos b) (buffer b) (size b) (avail b) (Evict b)).

Definition Get (b : CircularBuffer) : outcome (iface * CircularBuffer) :=
  let* b1 := acquire b in Get_locked b1.

(** The body of [Pop] under the lock. *)
Definition Pop_locked (b : CircularBuffer) : outcome (iface * CircularBuffer) :=
  if start b =? pos b then Panic "Can't pop from empty buffer"
  else
    let* pos1 := urem (usub (uadd (size b) (pos b)) 1) (size b) in
    let* v := index (buffer b) pos1 in
    let* buf1 := store (buffer b) pos1 Nil in
    Done (v, mkCB (start b) pos1 buf1 (size b) (avail b) (Evict b)).

Definition Pop (b : CircularBuffer) : outcome (iface * CircularBuffer) :=
  let* b1 := acquire b in Pop_locked b1.

Definition Empty (b : CircularBuffer) : bool := chan_len (avail b) =? 0.

(** [verifyIsEmpty], the helper of the test file (src/unnamed/part_000). *)
Definition verifyIsEmpty (b : CircularBuffer) : outcome bool :=
  let e := chan_len (avail b) =? 0 in
  if e && negb (pos b =? start b) then Panic "desychronized state" else Done e.

(** *** Client loops, as in the tests: [for ... { c.NBPush(v) }],
    [for ... { c.Get() }], [for ... { c.Pop() }]. *)

Fixpoint NBPush_all (vs : list iface) (b : CircularBuffer) (w : W)
  : outcome (CircularBuffer * W) :=
  match vs with
  | [] => Done (b, w)
  | v :: vs' => let* r := NBPush v b w in NBPush_all vs' (fst r) (snd r)
  end.

Fixpoint Get_n (n : nat) (b : CircularBuffer) : outcome (list iface * CircularBuffer) :=
  match n with
  | O => Done ([], b)
  | S n' =>
      let* r := Get b in
      let* rs := Get_n n' (snd r) in
      Done (fst r :: fst rs, snd rs)
  end.

Fixpoint Pop_n (n : nat) (b : CircularBuffer) : outcome (list iface * CircularBuffer) :=
  match n with
  | O => Done ([], b)
  | S n' =>
      let* r := Pop b in
      let* rs := Pop_n n' (snd r) in
      Done (fst r :: fst rs, snd rs)
  end.

(** What the callback has done to [w] once it has been handed the items
    [es], in order. *)
Definition deliver (cb : option (iface -> W -> W)) (es : list iface) (w : W) : W :=
  match cb with
  | Some f => fold_left (fun w' e => f e w') es w
  | None => w
  end.

(** *** Reachable states: what a single goroutine can build from
    [NewCircularBuffer n] with calls that return. *)

Inductive reachable (n : Z) : CircularBuffer -> Prop :=
| reach_New b :
    NewCircularBuffer n = Done b -> reachable n b
| reach_set_Evict b f :
    reachable n b -> reachable n (set_Evict f b)
| reach_NBPush b v w b' w' :
    reachable n b -> NBPush v b w = Done (b', w') -> reachable n b'
| reach_Get b v b' :
    reachable n b -> Get b = Done (v, b') -> reachable n b'
| reach_Pop b v b' :
    reachable n b -> Pop b = Done (v, b') -> reachable n b'.

(** *** The view of the buffer as a queue *)

(** Number of used cells, from the cursors. *)
Definition live (b : CircularBuffer) : Z := (size b + pos b - start b) mod size b.

(** The [i]-th used cell, counted from [start]. *)
Definition slot (b : CircularBuffer) (i : Z) : iface :=
  default Nil (buffer b !! Z.to_nat ((start b + i) mod size b)).

(** The used cells, oldest first. *)
Definition contents (b : CircularBuffer) : list iface := slot b <$> seqZ 0 (live b).

(** The representation invariant of a buffer of capacity [n]. *)
Record wf (n : Z) (b : CircularBuffer) : Prop := mk_wf {
  wf_size : size b = n;
  wf_n : 0 < n <= max_int;
  wf_len : Z.of_nat (length (buffer b)) = n;
  wf_start : 0 <= start b < n;
  wf_pos : 0 <= pos b < n;
  wf_cap : cap (avail b) = n;
  wf_avail : chan_len (avail b) = (n + pos b - start b) mod n
}.

(** *** Several goroutines

    [b.lock] makes the body of each call atomic, but [Get] and [Pop] receive
    from [avail] before they take the lock, and other goroutines may run in
    between.  A configuration is the shared buffer and the number of
    goroutines that have received their token and not yet run the body. *)

Record config : Type := mkConfig { shared : CircularBuffer; holders : Z }.

Inductive step : config -> config -> Prop :=
| step_set_Evict c f :
    step c (mkConfig (set_Evict f (shared c)) (holders c))
| step_NBPush c v w b' w' :
    NBPush v (shared c) w = Done (b', w') ->
    step c (mkConfig b' (holders c))
| step_acquire c b' :
    acquire (shared c) = Done b' ->
    step c (mkConfig b' (holders c + 1))
| step_Get c v b' :
    0 < holders c -> Get_locked (shared c) = Done (v, b') ->
    step c (mkConfig b' (holders c - 1))
| step_Pop c v b' :
    0 < holders c -> Pop_locked (shared c) = Done (v, b') ->
    step c (mkConfig b' (holders c - 1)).

Inductive running (n : Z) : config -> Prop :=
| running_New b :
    NewCircularBuffer n = Done b -> running n (mkConfig b 0)
| running_step c c' :
    running n c -> step c c' -> running n c'.

(** The invariant with [k] tokens held by goroutines on their way from the
    receive to the lock: tokens in [avail] plus tokens held are the used
    cells. *)
Record held (n k : Z) (b : CircularBuffer) : Prop := mk_held {
  held_size : size b = n;
  held_n : 0 < n <= max_int;
  held_len : Z.of_nat (length (buffer b)) = n;
  held_start : 0 <= start b < n;
  held_pos : 0 <= pos b < n;
  held_cap : cap (avail b) = n;
  held_k : 0 <= k;
  held_avail : chan_len (avail b) + k = (n + pos b - start b) mod n
}.

(** *** A producer and a consumer

    The two goroutines of TestAsyncGet and TestASyncPop: one pushes the
    values of a list in order, the other makes a sequence of [Get] and
    [Pop] calls and keeps what they return.  Their steps interleave in any
    order; a call of the consumer is two steps, the receive on [avail] and
    the body under the lock. *)

Inductive removal : Type := ByGet | ByPop.

Record duo : Type := mkDuo {
  duo_buf : CircularBuffer;
  duo_world : W;
  duo_todo : list iface;          (* what the producer has still to push *)
  duo_plan : list removal;        (* the calls the consumer has still to start *)
  duo_token : option removal;     (* the call that has received and not yet run its body *)
  duo_got : list iface            (* what the consumer's calls have returned *)
}.

Inductive duo_step : duo -> duo -> Prop :=
| duo_push d v todo b' w' :
    duo_todo d = v :: todo ->
    NBPush v (duo_buf d) (duo_world d) = Done (b', w') ->
    duo_step d (mkDuo b' w' todo (duo_plan d) (duo_token d) (duo_got d))
| duo_recv d r plan b' :
    duo_token d = None -> duo_plan d = r :: plan ->
    acquire (duo_buf d) = Done b' ->
    duo_step d (mkDuo b' (duo_world d) (duo_todo d) plan (Some r) (duo_got d))
| duo_Get d v b' :
    duo_token d = Some ByGet ->
    Get_locked (duo_buf d) = Done (v, b') ->
    duo_step d (mkDuo b' (duo_world d) (duo_todo d) (duo_plan d) None (duo_got d ++ [v]))
| duo_Pop d v b' :
    duo_token d = Some ByPop ->
    Pop_locked (duo_buf d) = Done (v, b') ->
    duo_step d (mkDuo b' (duo_world d) (duo_todo d) (duo_plan d) None (duo_got d ++ [v])).

Inductive duo_run (d0 : duo) : duo -> Prop :=
| duo_run_refl : duo_run d0 d0
| duo_run_step d d' : duo_run d0 d -> duo_step d d' -> duo_run d0 d'.

(** Both goroutines are about to start. *)
Definition duo_start (b : CircularBuffer) (w : W) (vs : list iface) (plan : list removal)
  : duo :=
  mkDuo b w vs plan None [].

(** Both goroutines are done. *)
Definition duo_done (d : duo) : Prop :=
  duo_todo d = [] /\ duo_plan d = [] /\ duo_token d = None.

(** Tokens the consumer holds: one while it is between receive and body. *)
Definition duo_held (d : duo) : Z :=
  match duo_token d with Some _ => 1 | None => 0 end.

(** What every interleaving keeps while nothing is evicted: the tokens add
    up, every value is in exactly one place, the callback has not run, and
    the consumer's calls add up. *)
Record duo_inv (n : Z) (vs : list iface) (w0 : W) (calls : nat) (d : duo) : Prop := {
  di_held : held n (duo_held d) (duo_buf d);
  di_perm : Permutation (duo_got d ++ contents (duo_buf d) ++ duo_todo d) vs;
  di_world : duo_world d = w0;
  di_calls : (length (duo_got d) + Z.to_nat (duo_held d) + length (duo_plan d))%nat = calls
}.

(** The readiness counter agrees with the cursors and stays below [n]. *)
Definition counter_ok (n : Z) (b : CircularBuffer) : Prop :=
  chan_len (avail b) = (n + pos b - start b) mod n /\
  0 <= chan_len (avail b) <= n - 1.


End WithTypes.
Arguments CircularBuffer A W : clear implicits.
End CB.

(** ** Concrete buffers, as the tests build them *)

Module Ex.
Import CB.

(** The integers the tests push, as [interface{}] values. *)
Definition ints (l : list Z) : list (option Z) := Some <$> l.

(** The callback of TestSyncOverflow, keeping what it is handed. *)
Definition record (e : option Z) (log : list (option Z)) : list (option Z) := log ++ [e].

(** [NewCircularBuffer(3)] *)
Definition fresh3 : CircularBuffer Z (list (option Z)) :=
  mkCB 0 0 [Nil; Nil; Nil] 3 (mkChan [] 3) None.

(** [NewCircularBuffer(3)] after [NBPush(7)] *)
Definition one3 : CircularBuffer Z (list (option Z)) :=
  mkCB 0 1 [Some 7; Nil; Nil] 3 (mkChan [true] 3) None.

(** [one3] once a goroutine has received its token from [avail]. *)
Definition taken3 : CircularBuffer Z (list (option Z)) :=
  mkCB 0 1 [Some 7; Nil; Nil] 3 (mkChan [] 3) None.

(** [one3] after [Get()]: 7 stays in its cell. *)
Definition got3 : CircularBuffer Z (list (option Z)) :=
  mkCB 1 1 [Some 7; Nil; Nil] 3 (mkChan [] 3) None.

(** [NewCircularBuffer(3)] after [NBPush(7)] and [NBPush(8)]: full. *)
Definition full3 : CircularBuffer Z (list (option Z)) :=
  mkCB 0 2 [Some 7; Some 8; Nil] 3 (mkChan [true; true] 3) None.

(** [NewCircularBuffer(10)], as in every test. *)
Definition fresh10 : CircularBuffer Z (list (option Z)) :=
  mkCB 0 0 (replicate 10 Nil) 10 (mkChan [] 10) None.

(** [NewCircularBuffer(1)] *)
Definition fresh1 : CircularBuffer Z (list (option Z)) :=
  mkCB 0 0 [Nil] 1 (mkChan [] 1) None.

(** The goroutines of TestAsyncGet about to start, on capacity 3 with the
    values 7 and 8. *)
Definition getters3 : duo (A:=Z) (W:=list (option Z)) :=
  duo_start fresh3 [] [Some 7; Some 8] [ByGet; ByGet].

(** [NewCircularBuffer(0)] *)
Definition fresh0 : CircularBuffer Z (list (option Z)) :=
  mkCB 0 0 [] 0 (mkChan [] 0) None.

End Ex.


(** ** src/unnamed/part_001 and src/unnamed/part_002

    Both revisions declare the same struct (no [Evict] field) and [NBPush]
    returns the evicted item.  They differ in [Get] only: part_001 also
    writes nil into the cell at [pos]. *)

Module Rev.

Record CircularBuffer (A : Type) : Type := mkCB {
  start : Z;               (* idx of first used cell *)
  pos : Z;                 (* idx of first unused cell *)
  buffer : list (option A);
  size : Z;
  avail : chan bool        (* poor man's semaphore *)
}.
Arguments mkCB {A} start pos buffer size avail.
Arguments start {A} c.
Arguments pos {A} c.
Arguments buffer {A} c.
Arguments size {A} c.
Arguments avail {A} c.

Section View.
  Context {A : Type}.
  Implicit Types b : CircularBuffer A.

Definition live b : Z := (size b + pos b - start b) mod size b.

Definition slot b (i : Z) : option A :=
  default Nil (buffer b !! Z.to_nat ((start b + i) mod size b)).

Definition contents b : list (option A) := slot b <$> seqZ 0 (live b).

Record wf (n : Z) b : Prop := mk_wf {
  wf_size : size b = n;
  wf_n : 0 < n <= max_int;
  wf_len : Z.of_nat (length (buffer b)) = n;
  wf_start : 0 <= start b < n;
  wf_pos : 0 <= pos b < n;
  wf_cap : cap (avail b) = n;
  wf_avail : chan_len (avail b) = (n + pos b - start b) mod n
}.

(** Two buffers with the same cursors, the same tokens and the same
    queued items; cells that hold no queued item may differ. *)
Definition same_queue (n : Z) b1 b2 : Prop :=
  wf n b1 /\ wf n b2 /\
  start b1 = start b2 /\ pos b1 = pos b2 /\ avail b1 = avail b2 /\
  contents b1 = contents b2.

(** The calls a client makes, and what a run of calls counts. *)
Inductive call : Type :=
| CallNBPush (v : option A)
| CallGet
| CallPop.

Record tally : Type := mkTally { pushes : Z; removals : Z; evictions : Z }.

(** Pushes less what has left the buffer. *)
Definition balance (t : tally) : Z := pushes t - (removals t + evictions t).

Definition is_push (c : call) : bool :=
  match c with CallNBPush _ => true | _ => false end.

(** How many calls of a sequence are pushes, how many are removals. *)
Fixpoint pushes_in (cs : list call) : Z :=
  match cs with
  | [] => 0
  | c :: cs' => (if is_push c then 1 else 0) + pushes_in cs'
  end.

Fixpoint removals_in (cs : list call) : Z :=
  match cs with
  | [] => 0
  | c :: cs' => (if is_push c then 0 else 1) + removals_in cs'
  end.

(** The test of [NBPush]: the advance makes [pos == start]. *)
Definition evicting b : bool :=
    match urem (uadd (pos b) 1) (size b) with
    | Done pos1 => pos1 =? start b
    | _ => false
    end.
  End View.

(** *** src/unnamed/part_002 *)
Module P2.
Section WithType.
  Context {A : Type}.
  Abbreviation iface := (option A).
  Implicit Types b : CircularBuffer A.

Definition NewCircularBuffer (n : Z) : outcome (CircularBuffer A) :=
  let* buf := make_slice Nil n in
  let* ch := make_chan n in
  Done (mkCB 0 0 buf n ch).

Definition NBPush (v : iface) b : outcome (iface * CircularBuffer A) :=
  let* buf1 := store (buffer b) (pos b) v in
  let* pos1 := urem (uadd (pos b) 1) (size b) in
  if pos1 =? start b then
    let* evictv := index buf1 (start b) in
    let* buf2 := store buf1 (start b) Nil in
    let* start1 := urem (uadd (start b) 1) (size b) in
    Done (evictv, mkCB start1 pos1 buf2 (size b) (avail b))
  else
    match try_send (avail b) true with
    | Some ch => Done (Nil, mkCB (start b) pos1 buf1 (size b) ch)
    | None => Panic "Sending to avail channel must never block"
    end.

Definition acquire b : outcome (CircularBuffer A) :=
  match recv (avail b) with
  | Some (_, ch) => Done (mkCB (start b) (pos b) (buffer b) (size b) ch)
  | None => Block
  end.

Definition Get_locked b : outcome (iface * CircularBuffer A) :=
  if start b =? pos b then Panic "Trying to get from empty buffer"
  else
    let* v := index (buffer b) (start b) in
    let* start1 := urem (uadd (start b) 1) (size b) in
    Done (v, mkCB start1 (pos b) (buffer b) (size b) (avail b)).

Definition Get b : outcome (iface * CircularBuffer A) :=
  let* b1 := acquire b in Get_locked b1.

Definition Pop_locked b : outcome (iface * CircularBuffer A) :=
  if start b =? pos b then Panic "Can't pop from empty buffer"
  else
    let* pos1 := urem (usub (uadd (size b) (pos b)) 1) (size b) in
    let* v := index (buffer b) pos1 in
    let* buf1 := store (buffer b) pos1 Nil in
    Done (v, mkCB (start b) pos1 buf1 (size b) (avail b)).

Definition Pop b : outcome (iface * CircularBuffer A) :=
  let* b1 := acquire b in Pop_locked b1.

Definition Empty b : bool := chan_len (avail b) =? 0.

Definition Length b : Z := chan_len (avail b).

(** [for _, v := range vs { rs = append(rs, c.NBPush(v)) }] *)
Fixpoint NBPush_all (vs : list iface) b : outcome (list iface * CircularBuffer A) :=
  match vs with
  | [] => Done ([], b)
  | v :: vs' =>
      let* r := NBPush v b in
      let* rs := NBPush_all vs' (snd r) in
      Done (fst r :: fst rs, snd rs)
  end.

Definition step (c : call) b (t : tally) : outcome (CircularBuffer A * tally) :=
  match c with
  | CallNBPush v =>
      let* r := NBPush v b in
      Done (snd r, mkTally (pushes t + 1) (removals t)
                     (evictions t + (if evicting b then 1 else 0)))
  | CallGet =>
      let* r := Get b in
      Done (snd r, mkTally (pushes t) (removals t + 1) (evictions t))
  | CallPop =>
      let* r := Pop b in
      Done (snd r, mkTally (pushes t) (removals t + 1) (evictions t))
  end.

Fixpoint run (cs : list call) b (t : tally) : outcome (CircularBuffer A * tally) :=
    match cs with
    | [] => Done (b, t)
    | c :: cs' => let* r := step c b t in run cs' (fst r) (snd r)
    end.
(** States one goroutine can build from [NewCircularBuffer n] with calls
    that return. *)
Inductive reachable (n : Z) : CircularBuffer A -> Prop :=
| reach_New b :
    NewCircularBuffer n = Done b -> reachable n b
| reach_NBPush b v r b' :
    reachable n b -> NBPush v b = Done (r, b') -> reachable n b'
| reach_Get b v b' :
    reachable n b -> Get b = Done (v, b') -> reachable n b'
| reach_Pop b v b' :
    reachable n b -> Pop b = Done (v, b') -> reachable n b'.

(** One call, with what it returns. *)
Definition do_call (c : call) b : outcome (iface * CircularBuffer A) :=
  match c with
  | CallNBPush v => NBPush v b
  | CallGet => Get b
  | CallPop => Pop b
  end.

(** A sequence of calls, with what each returns. *)
Fixpoint do_calls (cs : list call) b : outcome (list iface * CircularBuffer A) :=
  match cs with
  | [] => Done ([], b)
  | c :: cs' =>
      let* r := do_call c b in
      let* rs := do_calls cs' (snd r) in
      Done (fst r :: fst rs, snd rs)
  end.

End WithType.
End P2.

(** *** src/unnamed/part_001 *)
Module P1.
Section WithType.
  Context {A : Type}.
  Abbreviation iface := (option A).
  Implicit Types b : CircularBuffer A.

Definition NewCircularBuffer (n : Z) : outcome (CircularBuffer A) :=
  let* buf := make_slice Nil n in
  let* ch := make_chan n in
  Done (mkCB 0 0 buf n ch).

Definition NBPush (v : iface) b : outcome (iface * CircularBuffer A) :=
  let* buf1 := store (buffer b) (pos b) v in
  let* pos1 := urem (uadd (pos b) 1) (size b) in
  if pos1 =? start b then
    (* Remove old item from the bottom of the stack to free the space
       for the new one. This doesn't change the length of the stack,
       so no need to touch avail. *)
    let* evictv := index buf1 (start b) in
    let* buf2 := store buf1 (start b) Nil in
    let* start1 := urem (uadd (start b) 1) (size b) in
    Done (evictv, mkCB start1 pos1 buf2 (size b) (avail b))
  else
    match try_send (avail b) true with
    | Some ch => Done (Nil, mkCB (start b) pos1 buf1 (size b) ch)
    | None => Panic "Sending to avail channel must never block"
    end.

Definition acquire b : outcome (CircularBuffer A) :=
  match recv (avail b) with
  | Some (_, ch) => Done (mkCB (start b) (pos b) (buffer b) (size b) ch)
  | None => Block
  end.

Definition Get_locked b : outcome (iface * CircularBuffer A) :=
  if start b =? pos b then Panic "Trying to get from empty buffer"
  else
    let* v := index (buffer b) (start b) in
    let* buf1 := store (buffer b) (pos b) Nil in
    let* start1 := urem (uadd (start b) 1) (size b) in
    Done (v, mkCB start1 (pos b) buf1 (size b) (avail b)).

Definition Get b : outcome (iface * CircularBuffer A) :=
  let* b1 := acquire b in Get_locked b1.

Definition Pop_locked b : outcome (iface * CircularBuffer A) :=
  if start b =? pos b then Panic "Can't pop from empty buffer"
  else
    let* pos1 := urem (usub (uadd (size b) (pos b)) 1) (size b) in
    let* v := index (buffer b) pos1 in
    let* buf1 := store (buffer b) pos1 Nil in
    Done (v, mkCB (start b) pos1 buf1 (size b) (avail b)).

Definition Pop b : outcome (iface * CircularBuffer A) :=
  let* b1 := acquire b in Pop_locked b1.

Definition Empty b : bool := chan_len (avail b) =? 0.

Definition Length b : Z := chan_len (avail b).

Fixpoint NBPush_all (vs : list iface) b : outcome (list iface * CircularBuffer A) :=
  match vs with
  | [] => Done ([], b)
  | v :: vs' =>
      let* r := NBPush v b in
      let* rs := NBPush_all vs' (snd r) in
      Done (fst r :: fst rs, snd rs)
  end.

Definition step (c : call) b (t : tally) : outcome (CircularBuffer A * tally) :=
  match c with
  | CallNBPush v =>
      let* r := NBPush v b in
      Done (snd r, mkTally (pushes t + 1) (removals t)
                     (evictions t + (if evicting b then 1 else 0)))
  | CallGet =>
      let* r := Get b in
      Done (snd r, mkTally (pushes t) (removals t + 1) (evictions t))
  | CallPop =>
      let* r := Pop b in
      Done (snd r, mkTally (pushes t) (removals t + 1) (evictions t))
  end.

Fixpoint run (cs : list call) b (t : tally) : outcome (CircularBuffer A * tally) :=
    match cs with
    | [] => Done (b, t)
    | c :: cs' => let* r := step c b t in run cs' (fst r) (snd r)
    end.
(** States one goroutine can build from [NewCircularBuffer n] with calls
    that return. *)
Inductive reachable (n : Z) : CircularBuffer A -> Prop :=
| reach_New b :
    NewCircularBuffer n = Done b -> reachable n b
| reach_NBPush b v r b' :
    reachable n b -> NBPush v b = Done (r, b') -> reachable n b'
| reach_Get b v b' :
    reachable n b -> Get b = Done (v, b') -> reachable n b'
| reach_Pop b v b' :
    reachable n b -> Pop b = Done (v, b') -> reachable n b'.

(** One call, with what it returns. *)
Definition do_call (c : call) b : outcome (iface * CircularBuffer A) :=
  match c with
  | CallNBPush v => NBPush v b
  | CallGet => Get b
  | CallPop => Pop b
  end.

(** A sequence of calls, with what each returns. *)
Fixpoint do_calls (cs : list call) b : outcome (list iface * CircularBuffer A) :=
  match cs with
  | [] => Done ([], b)
  | c :: cs' =>
      let* r := do_call c b in
      let* rs := do_calls cs' (snd r) in
      Done (fst r :: fst rs, snd rs)
  end.

End WithType.
End P1.
  End Rev.

(** ** From one revision to another *)

Module Bridge.
Section WithTypes.
Context {A W : Type}.

(** The fields src/circularbuffer.go shares with part_001 and part_002. *)
Definition to_Rev (b : CB.CircularBuffer A W) : Rev.CircularBuffer A :=
  Rev.mkCB (CB.start b) (CB.pos b) (CB.buffer b) (CB.size b) (CB.avail b).

Definition of_Rev (f : option (option A -> W -> W)) (b : Rev.CircularBuffer A)
  : CB.CircularBuffer A W :=
  CB.mkCB (Rev.start b) (Rev.pos b) (Rev.buffer b) (Rev.size b) (Rev.avail b) f.

End WithTypes.

(** What a call hands back, without the buffer. *)
Definition returned {R S : Type} (m : outcome (R * S)) : outcome R :=
  let* r := m in Done (fst r).

End Bridge.

(** ** Concrete buffers of part_001 and part_002 *)

Module ExRev.
Import Rev.

(** [NewCircularBuffer(3)] *)
Definition fresh3 : CircularBuffer Z := mkCB 0 0 [Nil; Nil; Nil] 3 (mkChan [] 3).

(** [NewCircularBuffer(3)] after [NBPush(7)] *)
Definition one3 : CircularBuffer Z := mkCB 0 1 [Some 7; Nil; Nil] 3 (mkChan [true] 3).

(** [NewCircularBuffer(3)] after [NBPush(7)] and [NBPush(8)]: full. *)
Definition full3 : CircularBuffer Z :=
  mkCB 0 2 [Some 7; Some 8; Nil] 3 (mkChan [true; true] 3).

(** [full3] after [NBPush(9)], which evicts 7. *)
Definition pushed3 : CircularBuffer Z :=
  mkCB 1 0 [Nil; Some 8; Some 9] 3 (mkChan [true; true] 3).

(** [one3] after part_001's [Get()]. *)
Definition got3 : CircularBuffer Z := mkCB 1 1 [Some 7; Nil; Nil] 3 (mkChan [] 3).

(** [NewCircularBuffer(0)] *)
Definition fresh0 : CircularBuffer Z := mkCB 0 0 [] 0 (mkChan [] 0).

End ExRev.

(** * Proofs *)

(** ** Arithmetic of the cursors *)

Lemma uint_modulus_val : uint_modulus = 18446744073709551616.
Proof. reflexivity. Qed.

Lemma max_int_val : max_int = 9223372036854775807.
Proof. reflexivity. Qed.

Lemma mod_once n x : n <= x < 2 * n -> x mod n = x - n.
Proof.
  intros Hx. symmetry. apply (Z.mod_unique x n 1); lia.
Qed.

Lemma uadd_exact x y : 0 <= x + y < uint_modulus -> uadd x y = x + y.
Proof. intros Hxy. unfold uadd. now apply Z.mod_small. Qed.

Lemma usub_exact x y : 0 <= x - y < uint_modulus -> usub x y = x - y.
Proof. intros Hxy. unfold usub. now apply Z.mod_small. Qed.

Lemma urem_Done x y : y <> 0 -> urem x y = Done (x mod y).
Proof.
  intros Hy. unfold urem. destruct (Z.eqb_spec y 0); [contradiction | reflexivity].
Qed.

(** Reduce [x mod n] when [0 <= x < 2 * n], splitting on [x < n] when it is
    not known. *)
Ltac mod_step x n :=
  first
    [ rewrite (Z.mod_small x n) in * by lia
    | rewrite (mod_once n x) in * by lia
    | destruct (Z_lt_dec x n);
      [ rewrite (Z.mod_small x n) in * by lia
      | rewrite (mod_once n x) in * by lia ] ].

Ltac mod_split :=
  repeat match goal with
         | |- context [ ?x mod ?n ] => mod_step x n
         | H : context [ ?x mod ?n ] |- _ => mod_step x n
         end.

(** Reduce the lookups [<[k:=x]> l !! j] and [[x] !! j] whose indices
    linear arithmetic settles. *)
Ltac cells :=
  repeat match goal with
         | |- context [ <[?k := ?x]> ?l !! ?j ] =>
             first
               [ rewrite (list_lookup_insert_ne l k j x) by lia
               | replace j with k by lia;
                 rewrite (list_lookup_insert_eq l k x) by (rewrite ?length_insert; lia) ]
         | |- context [ [?x] !! ?j ] =>
             first
               [ replace j with 0%nat by lia; cbn [lookup list_lookup]
               | rewrite (lookup_ge_None_2 [x] j) by (cbn [length]; lia) ]
         end.

(** Two reads of one list at indices that are equal by arithmetic. *)
Ltac same_cell :=
  match goal with
  | |- Some (default _ (?l !! ?i)) = Some (default _ (?l !! ?j)) =>
      replace i with j by lia; reflexivity
  end.

Lemma store_Done {T} (l : list T) i x :
  0 <= i < Z.of_nat (length l) -> store l i x = Done (<[Z.to_nat i := x]> l).
Proof.
  intros Hi. unfold store. destruct (Z.ltb_spec i (Z.of_nat (length l))); [reflexivity | lia].
Qed.

Lemma index_Done {T} (l : list T) i (d : T) :
  0 <= i < Z.of_nat (length l) -> index l i = Done (default d (l !! Z.to_nat i)).
Proof.
  intros Hi. unfold index.
  destruct (lookup_lt_is_Some_2 l (Z.to_nat i)) as [x Hx]; [lia |].
  now rewrite Hx.
Qed.

(** ** src/circularbuffer.go: the calls on a well-formed buffer *)

Section CBSteps.
  Context {A W : Type}.
  Import CB.
  Implicit Types (b : CircularBuffer A W) (v : option A) (w : W).

Lemma wf_held n b : wf n b <-> held n 0 b.
Proof.
  split.
  - intros [Hsz Hn Hlen Hs Hp Hcap Hav]. constructor; try assumption; lia.
  - intros [Hsz Hn Hlen Hs Hp Hcap Hk Hav]. constructor; try assumption; lia.
Qed.

Lemma NBPush_eq_held n k b v w :
  held n k b ->
  NBPush v b w =
    let pos1 := (pos b + 1) mod n in
    let buf1 := <[Z.to_nat (pos b) := v]> (buffer b) in
    if pos1 =? start b then
      let evictv := default Nil (buf1 !! Z.to_nat (start b)) in
      Done (mkCB ((start b + 1) mod n) pos1 (<[Z.to_nat (start b) := Nil]> buf1) n
              (avail b) (Evict b),
            match Evict b with Some f => f evictv w | None => w end)
    else
      Done (mkCB (start b) pos1 buf1 n (mkChan (queue (avail b) ++ [true]) n) (Evict b), w).
Proof.
  intros [Hsz Hn Hlen Hs Hp Hcap Hk Hav].
  pose proof uint_modulus_val as Hm. pose proof max_int_val as Hi.
  unfold NBPush.
  rewrite store_Done by lia. cbn [bind].
  rewrite uadd_exact by lia. rewrite Hsz. rewrite urem_Done by lia. cbn [bind].
  cbv zeta.
  destruct (Z.eqb_spec ((pos b + 1) mod n) (start b)) as [Heq | Hne].
  - rewrite (index_Done _ _ Nil) by (rewrite length_insert; lia). cbn [bind].
    rewrite store_Done by (rewrite length_insert; lia). cbn [bind].
    rewrite uadd_exact by lia. rewrite urem_Done by lia. cbn [bind].
    destruct (Evict b); reflexivity.
  - unfold try_send. rewrite Hcap.
    pose proof (Z.mod_pos_bound (n + pos b - start b) n).
    destruct (Z.ltb_spec (chan_len (avail b)) n) as [Hlt | Hge]; [reflexivity | lia].
Qed.

Lemma NBPush_eq n b v w :
  wf n b ->
  NBPush v b w =
    let pos1 := (pos b + 1) mod n in
    let buf1 := <[Z.to_nat (pos b) := v]> (buffer b) in
    if pos1 =? start b then
      let evictv := default Nil (buf1 !! Z.to_nat (start b)) in
      Done (mkCB ((start b + 1) mod n) pos1 (<[Z.to_nat (start b) := Nil]> buf1) n
              (avail b) (Evict b),
            match Evict b with Some f => f evictv w | None => w end)
    else
      Done (mkCB (start b) pos1 buf1 n (mkChan (queue (avail b) ++ [true]) n) (Evict b), w).
Proof. intros Hwf. apply (NBPush_eq_held n 0). now apply wf_held. Qed.

Lemma live_zero_iff n b : wf n b -> (chan_len (avail b) = 0 <-> start b = pos b).
Proof.
  intros [Hsz Hn Hlen Hs Hp Hcap Hav]. rewrite Hav. split; intros H; mod_split; lia.
Qed.

Lemma acquire_eq n b :
  wf n b ->
  acquire b =
    if start b =? pos b then Block
    else Done (mkCB (start b) (pos b) (buffer b) (size b)
                 (mkChan (tail (queue (avail b))) n) (Evict b)).
Proof.
  intros Hwf. pose proof (live_zero_iff n b Hwf) as Hz.
  destruct Hwf as [Hsz Hn Hlen Hs Hp Hcap Hav].
  unfold acquire, recv. unfold chan_len in Hz.
  destruct (Z.eqb_spec (start b) (pos b)) as [Heq | Hne];
    destruct (queue (avail b)) as [| x q] eqn:Hq; cbn [length tail] in *.
  - reflexivity.
  - exfalso. lia.
  - exfalso. apply Hne, Hz. reflexivity.
  - rewrite Hcap. reflexivity.
Qed.

Lemma Get_eq n b :
  wf n b ->
  Get b =
    if start b =? pos b then Block
    else Done (default Nil (buffer b !! Z.to_nat (start b)),
               mkCB ((start b + 1) mod n) (pos b) (buffer b) n
                 (mkChan (tail (queue (avail b))) n) (Evict b)).
Proof.
  intros Hwf. unfold Get. rewrite (acquire_eq n b Hwf).
  destruct Hwf as [Hsz Hn Hlen Hs Hp Hcap Hav].
  pose proof uint_modulus_val as Hm. pose proof max_int_val as Hi.
  destruct (Z.eqb_spec (start b) (pos b)) as [Heq | Hne]; [reflexivity |].
  cbn [bind]. unfold Get_locked. cbn [start pos buffer size avail Evict].
  destruct (Z.eqb_spec (start b) (pos b)); [contradiction |].
  rewrite (index_Done _ _ Nil) by lia. cbn [bind].
  rewrite uadd_exact by lia. rewrite Hsz. rewrite urem_Done by lia. reflexivity.
Qed.

Lemma Pop_eq n b :
  wf n b ->
  Pop b =
    if start b =? pos b then Block
    else
      let pos1 := (n + pos b - 1) mod n in
      Done (default Nil (buffer b !! Z.to_nat pos1),
            mkCB (start b) pos1 (<[Z.to_nat pos1 := Nil]> (buffer b)) n
              (mkChan (tail (queue (avail b))) n) (Evict b)).
Proof.
  intros Hwf. unfold Pop. rewrite (acquire_eq n b Hwf).
  destruct Hwf as [Hsz Hn Hlen Hs Hp Hcap Hav].
  pose proof uint_modulus_val as Hm. pose proof max_int_val as Hi.
  destruct (Z.eqb_spec (start b) (pos b)) as [Heq | Hne]; [reflexivity |].
  cbn [bind]. unfold Pop_locked. cbn [start pos buffer size avail Evict].
  destruct (Z.eqb_spec (start b) (pos b)); [contradiction |].
  rewrite Hsz, uadd_exact by lia. rewrite usub_exact by lia.
  rewrite urem_Done by lia. cbn [bind]. cbv zeta.
  assert (0 <= (n + pos b - 1) mod n < n) as Hr by (apply Z.mod_pos_bound; lia).
  rewrite (index_Done _ _ Nil) by lia. cbn [bind].
  rewrite store_Done by lia. reflexivity.
Qed.

(** *** The invariant holds initially and is kept by every call *)

Lemma New_eq n :
  0 <= n <= max_int ->
  NewCircularBuffer (A:=A) (W:=W) n =
    Done (mkCB 0 0 (replicate (Z.to_nat n) Nil) n (mkChan [] n) None).
Proof.
  intros Hn. unfold NewCircularBuffer, make_slice, make_chan.
  destruct (Z.leb_spec 0 n); [| lia]. destruct (Z.leb_spec n max_int); [| lia].
  reflexivity.
Qed.

Lemma New_Done_inv n b :
  NewCircularBuffer n = Done b ->
  0 <= n <= max_int /\ b = mkCB 0 0 (replicate (Z.to_nat n) Nil) n (mkChan [] n) None.
Proof.
  unfold NewCircularBuffer, make_slice, make_chan.
  destruct (Z.leb_spec 0 n); destruct (Z.leb_spec n max_int); cbn;
    intros Heq; try discriminate.
  inversion Heq. split; [lia | reflexivity].
Qed.

Lemma wf_New n b : 0 < n -> NewCircularBuffer n = Done b -> wf n b.
Proof.
  intros Hpos H. apply New_Done_inv in H as [Hn ->].
  constructor; cbn; try lia.
  - rewrite length_replicate. lia.
  - unfold chan_len. cbn. mod_split. lia.
Qed.

Lemma wf_set_Evict n b f : wf n b -> wf n (set_Evict f b).
Proof. intros [Hsz Hn Hlen Hs Hp Hcap Hav]. constructor; cbn; assumption. Qed.

Lemma chan_len_tail {T} (q : list T) c :
  q <> [] -> chan_len (mkChan (tail q) c) = Z.of_nat (length q) - 1.
Proof. unfold chan_len. destruct q; cbn; [congruence | lia]. Qed.

Lemma chan_len_snoc {T} (q : list T) x c :
  chan_len (mkChan (q ++ [x]) c) = Z.of_nat (length q) + 1.
Proof. unfold chan_len. cbn. rewrite length_app. cbn. lia. Qed.

Lemma queue_nonempty n b : wf n b -> start b <> pos b -> queue (avail b) <> [].
Proof.
  intros Hwf Hne Hq. apply Hne, (live_zero_iff n b Hwf).
  unfold chan_len. now rewrite Hq.
Qed.

Lemma held_NBPush n k b v w b' w' :
  held n k b -> NBPush v b w = Done (b', w') -> held n k b'.
Proof.
  intros Hh. rewrite (NBPush_eq_held n k b v w Hh). cbv zeta.
  destruct Hh as [Hsz Hn Hlen Hs Hp Hcap Hk Hav].
  destruct (Z.eqb_spec ((pos b + 1) mod n) (start b)) as [Heq | Hne];
    intros H; inversion H; subst b' w'; clear H.
  - constructor; cbn; try assumption; try reflexivity.
    + rewrite !length_insert. assumption.
    + apply Z.mod_pos_bound; lia.
    + apply Z.mod_pos_bound; lia.
    + rewrite Hav. mod_split; lia.
  - constructor; cbn; try assumption; try reflexivity.
    + rewrite length_insert. assumption.
    + apply Z.mod_pos_bound; lia.
    + rewrite chan_len_snoc. unfold chan_len in Hav.
      mod_split; lia.
Qed.

Lemma wf_NBPush n b v w b' w' : wf n b -> NBPush v b w = Done (b', w') -> wf n b'.
Proof. rewrite !wf_held. apply held_NBPush. Qed.

Lemma wf_Get n b v b' : wf n b -> Get b = Done (v, b') -> wf n b'.
Proof.
  intros Hwf. rewrite (Get_eq n b Hwf).
  pose proof (queue_nonempty n b Hwf) as Hq.
  destruct Hwf as [Hsz Hn Hlen Hs Hp Hcap Hav].
  destruct (Z.eqb_spec (start b) (pos b)) as [Heq | Hne]; [discriminate |].
  intros H; inversion H; subst v b'; clear H.
  constructor; cbn; try assumption; try reflexivity.
  - apply Z.mod_pos_bound; lia.
  - rewrite chan_len_tail by auto. unfold chan_len in Hav. rewrite Hav.
    mod_split; lia.
Qed.

Lemma wf_Pop n b v b' : wf n b -> Pop b = Done (v, b') -> wf n b'.
Proof.
  intros Hwf. rewrite (Pop_eq n b Hwf). cbv zeta.
  pose proof (queue_nonempty n b Hwf) as Hq.
  destruct Hwf as [Hsz Hn Hlen Hs Hp Hcap Hav].
  destruct (Z.eqb_spec (start b) (pos b)) as [Heq | Hne]; [discriminate |].
  intros H; inversion H; subst v b'; clear H.
  constructor; cbn; try assumption; try reflexivity.
  - rewrite length_insert. assumption.
  - apply Z.mod_pos_bound; lia.
  - rewrite chan_len_tail by auto. unfold chan_len in Hav. rewrite Hav.
    mod_split; lia.
Qed.

Lemma reachable_wf n b : 0 < n -> reachable n b -> wf n b.
Proof.
  intros Hn Hr. induction Hr.
  - now apply wf_New.
  - now apply wf_set_Evict.
  - eapply wf_NBPush; eassumption.
  - eapply wf_Get; eassumption.
  - eapply wf_Pop; eassumption.
Qed.

End CBSteps.

(** ** src/circularbuffer.go: several goroutines *)

Section CBGoroutines.
Context {A W : Type}.
Import CB.
Implicit Types (b : CircularBuffer A W) (v : option A) (w : W) (c : config (A:=A) (W:=W)).

Lemma held_set_Evict n k b f : held n k b -> held n k (set_Evict f b).
Proof. intros [Hsz Hn Hlen Hs Hp Hcap Hk Hav]. constructor; cbn; assumption. Qed.

Lemma held_acquire n k b b' : held n k b -> acquire b = Done b' -> held n (k + 1) b'.
Proof.
  intros [Hsz Hn Hlen Hs Hp Hcap Hk Hav]. unfold acquire, recv.
  destruct (queue (avail b)) as [| x q] eqn:Hq; [discriminate |].
  intros H; inversion H; subst b'; clear H.
  unfold chan_len in Hav. rewrite Hq in Hav. cbn [length] in Hav.
  constructor; cbn; try assumption; try lia.
  unfold chan_len. cbn. lia.
Qed.

(** With a token in hand the buffer is not empty. *)
Lemma held_nonempty n k b : held n k b -> 0 < k -> start b <> pos b.
Proof.
  intros [Hsz Hn Hlen Hs Hp Hcap Hk Hav] Hpos Heq.
  unfold chan_len in Hav. rewrite Heq in Hav. mod_split; lia.
Qed.

Lemma Get_locked_eq n k b :
  held n k b -> 0 < k ->
  Get_locked b =
    Done (default Nil (buffer b !! Z.to_nat (start b)),
          mkCB ((start b + 1) mod n) (pos b) (buffer b) n (avail b) (Evict b)).
Proof.
  intros Hh Hk. pose proof (held_nonempty n k b Hh Hk) as Hne.
  destruct Hh as [Hsz Hn Hlen Hs Hp Hcap _ Hav].
  pose proof uint_modulus_val as Hm. pose proof max_int_val as Hi.
  unfold Get_locked. destruct (Z.eqb_spec (start b) (pos b)); [contradiction |].
  rewrite (index_Done _ _ Nil) by lia. cbn [bind].
  rewrite uadd_exact by lia. rewrite Hsz. rewrite urem_Done by lia. reflexivity.
Qed.

Lemma Pop_locked_eq n k b :
  held n k b -> 0 < k ->
  Pop_locked b =
    let pos1 := (n + pos b - 1) mod n in
    Done (default Nil (buffer b !! Z.to_nat pos1),
          mkCB (start b) pos1 (<[Z.to_nat pos1 := Nil]> (buffer b)) n (avail b) (Evict b)).
Proof.
  intros Hh Hk. pose proof (held_nonempty n k b Hh Hk) as Hne.
  destruct Hh as [Hsz Hn Hlen Hs Hp Hcap _ Hav].
  pose proof uint_modulus_val as Hm. pose proof max_int_val as Hi.
  unfold Pop_locked. destruct (Z.eqb_spec (start b) (pos b)); [contradiction |].
  rewrite Hsz, uadd_exact by lia. rewrite usub_exact by lia.
  rewrite urem_Done by lia. cbn [bind]. cbv zeta.
  assert (0 <= (n + pos b - 1) mod n < n) as Hr by (apply Z.mod_pos_bound; lia).
  rewrite (index_Done _ _ Nil) by lia. cbn [bind].
  rewrite store_Done by lia. reflexivity.
Qed.

Lemma held_Get_locked n k b v b' :
  held n k b -> 0 < k -> Get_locked b = Done (v, b') -> held n (k - 1) b'.
Proof.
  intros Hh Hk. pose proof (held_nonempty n k b Hh Hk) as Hne.
  rewrite (Get_locked_eq n k b Hh Hk).
  destruct Hh as [Hsz Hn Hlen Hs Hp Hcap _ Hav].
  intros H; inversion H; subst v b'; clear H.
  constructor; cbn; try assumption; try lia.
  - apply Z.mod_pos_bound; lia.
  - mod_split; lia.
Qed.

Lemma held_Pop_locked n k b v b' :
  held n k b -> 0 < k -> Pop_locked b = Done (v, b') -> held n (k - 1) b'.
Proof.
  intros Hh Hk. pose proof (held_nonempty n k b Hh Hk) as Hne.
  rewrite (Pop_locked_eq n k b Hh Hk). cbv zeta.
  destruct Hh as [Hsz Hn Hlen Hs Hp Hcap _ Hav].
  intros H; inversion H; subst v b'; clear H.
  constructor; cbn; try assumption; try lia.
  - rewrite length_insert. assumption.
  - apply Z.mod_pos_bound; lia.
  - mod_split; lia.
Qed.

Lemma running_held n c : 0 < n -> running n c -> held n (holders c) (shared c).
Proof.
  intros Hn Hr. induction Hr as [b Hnew | c c' Hr IH Hstep].
  - cbn. apply wf_held. now apply wf_New.
  - destruct Hstep; cbn [shared holders].
    + now apply held_set_Evict.
    + eapply held_NBPush; eassumption.
    + eapply held_acquire; eassumption.
    + eapply held_Get_locked; eassumption.
    + eapply held_Pop_locked; eassumption.
Qed.

(** What one goroutine does alone is one of the interleavings. *)
Lemma Get_Done_inv b v b' :
  Get b = Done (v, b') -> exists b1, acquire b = Done b1 /\ Get_locked b1 = Done (v, b').
Proof.
  unfold Get. destruct (acquire b) as [b1 | |]; cbn [bind]; try discriminate. eauto.
Qed.

Lemma Pop_Done_inv b v b' :
  Pop b = Done (v, b') -> exists b1, acquire b = Done b1 /\ Pop_locked b1 = Done (v, b').
Proof.
  unfold Pop. destruct (acquire b) as [b1 | |]; cbn [bind]; try discriminate. eauto.
Qed.

Lemma reachable_running n b : reachable n b -> running n (mkConfig b 0).
Proof.
  intros Hr. induction Hr as [b Hnew | b f Hr IH | b v w b' w' Hr IH Hpush
                              | b v b' Hr IH Hget | b v b' Hr IH Hpop].
  - now apply running_New.
  - apply (running_step n _ _ IH (step_set_Evict _ f)).
  - apply (running_step n _ _ IH (step_NBPush (mkConfig b 0) v w b' w' Hpush)).
  - apply Get_Done_inv in Hget as (b1 & Hacq & Hbody).
    pose proof (running_step n _ _ IH (step_acquire (mkConfig b 0) b1 Hacq)) as H1.
    cbn [holders] in H1.
    apply (running_step n _ _ H1 (step_Get (mkConfig b1 (0 + 1)) v b' ltac:(cbn; lia) Hbody)).
  - apply Pop_Done_inv in Hpop as (b1 & Hacq & Hbody).
    pose proof (running_step n _ _ IH (step_acquire (mkConfig b 0) b1 Hacq)) as H1.
    cbn [holders] in H1.
    apply (running_step n _ _ H1 (step_Pop (mkConfig b1 (0 + 1)) v b' ltac:(cbn; lia) Hbody)).
Qed.

(** X17: among goroutines that interleave, the tokens in [avail] plus the
    tokens held by goroutines between their receive and the lock count
    the used cells; so [len(avail)] lags behind the cursors by the number
    of holders and agrees with them when nobody holds a token. *)
Lemma tokens_in_flight n c :
  0 < n -> running n c ->
  chan_len (avail (shared c)) + holders c =
    (n + pos (shared c) - start (shared c)) mod n /\
  0 <= holders c /\ 0 <= chan_len (avail (shared c)) <= n - 1.
Proof.
  intros Hn Hr. destruct (running_held n c Hn Hr) as [Hsz Hm Hlen Hs Hp Hcap Hk Hav].
  pose proof (Z.mod_pos_bound (n + pos (shared c) - start (shared c)) n).
  unfold chan_len in *. repeat split; lia.
Qed.

(** On a well-formed buffer the test helper agrees with [Empty]. *)
Lemma verifyIsEmpty_eq n b : wf n b -> verifyIsEmpty b = Done (Empty b).
Proof.
  intros Hwf. unfold verifyIsEmpty, Empty. cbv zeta.
  pose proof (live_zero_iff n b Hwf) as Hz.
  destruct (Z.eqb_spec (chan_len (avail b)) 0) as [H0 | H0]; [| reflexivity].
  apply Hz in H0. rewrite H0, Z.eqb_refl. reflexivity.
Qed.

End CBGoroutines.

(** ** src/circularbuffer.go: the buffer as a queue *)

Section CBQueue.
  Context {A W : Type}.
  Import CB.
  Implicit Types (b : CircularBuffer A W) (v : option A) (w : W).

Lemma live_eq n b : wf n b -> live b = (n + pos b - start b) mod n.
Proof. intros Hwf. unfold live. now rewrite (wf_size n b Hwf). Qed.

Lemma live_avail n b : wf n b -> chan_len (avail b) = live b.
Proof. intros Hwf. rewrite (live_eq n b Hwf). apply (wf_avail n b Hwf). Qed.

Lemma live_bound n b : wf n b -> 0 <= live b <= n - 1.
Proof.
  intros Hwf. rewrite (live_eq n b Hwf).
  pose proof (wf_n n b Hwf).
  pose proof (Z.mod_pos_bound (n + pos b - start b) n). lia.
Qed.

Lemma contents_length b : length (contents b) = Z.to_nat (live b).
Proof. unfold contents. now rewrite length_fmap, length_seqZ. Qed.

Lemma contents_lookup b (i : nat) :
  contents b !! i =
    if decide (Z.of_nat i < live b) then Some (slot b (Z.of_nat i)) else None.
Proof.
  unfold contents. rewrite list_lookup_fmap.
  destruct (decide (Z.of_nat i < live b)) as [Hlt | Hge].
  - rewrite lookup_seqZ_lt by assumption. reflexivity.
  - rewrite lookup_seqZ_ge by lia. reflexivity.
Qed.

Lemma NBPush_room n b v w b' w' :
  wf n b -> (pos b + 1) mod n <> start b ->
  NBPush v b w = Done (b', w') ->
  contents b' = contents b ++ [v] /\ w' = w /\ Evict b' = Evict b.
Proof.
  intros Hwf Hroom Hpush.
  pose proof (wf_NBPush n b v w b' w' Hwf Hpush) as Hwf'.
  pose proof (live_eq n b Hwf) as Hl. pose proof (live_eq n b' Hwf') as Hl'.
  rewrite (NBPush_eq n b v w Hwf) in Hpush. cbv zeta in Hpush.
  destruct Hwf as [Hsz Hn Hlen Hs Hp Hcap Hav].
  destruct (Z.eqb_spec ((pos b + 1) mod n) (start b)) as [Heq | Hne]; [contradiction |].
  inversion Hpush; subst b' w'; clear Hpush. cbn in Hl'.
  split; [| split; reflexivity].
  apply list_eq. intros i.
  rewrite lookup_app, !contents_lookup, contents_length.
  unfold slot. cbn [start pos buffer size]. rewrite Hsz, Hl, Hl'.
  repeat case_decide.
  all: clear Hwf' Hl Hl'; mod_split; try (exfalso; lia).
  all: cells; reflexivity.
Qed.

Lemma NBPush_full n b v w b' w' :
  wf n b -> (pos b + 1) mod n = start b ->
  NBPush v b w = Done (b', w') ->
  exists e,
    contents b ++ [v] = e :: contents b' /\
    w' = match Evict b with Some f => f e w | None => w end /\
    Evict b' = Evict b.
Proof.
  intros Hwf Hfull Hpush.
  pose proof (wf_NBPush n b v w b' w' Hwf Hpush) as Hwf'.
  pose proof (live_eq n b Hwf) as Hl. pose proof (live_eq n b' Hwf') as Hl'.
  rewrite (NBPush_eq n b v w Hwf) in Hpush. cbv zeta in Hpush.
  destruct Hwf as [Hsz Hn Hlen Hs Hp Hcap Hav].
  destruct (Z.eqb_spec ((pos b + 1) mod n) (start b)) as [Heq | Hne]; [| contradiction].
  inversion Hpush; subst b' w'; clear Hpush. cbn in Hl'.
  eexists. split; [| split; reflexivity].
  apply list_eq. intros i.
  rewrite lookup_app, contents_lookup, contents_length.
  destruct i as [| j]; cbn [lookup list_lookup].
  - unfold slot. rewrite Hsz, Hl. clear Hwf' Hl Hl'.
    case_decide; mod_split; try (exfalso; lia); cells.
    all: try reflexivity; same_cell.
  - rewrite contents_lookup.
    unfold slot. cbn [start pos buffer size]. rewrite Hsz, Hl, Hl'. clear Hwf' Hl Hl'.
    repeat case_decide; mod_split; try (exfalso; lia); cells.
    all: try reflexivity; same_cell.
Qed.

Lemma Get_front n b v b' :
  wf n b -> Get b = Done (v, b') ->
  contents b = v :: contents b' /\ Evict b' = Evict b.
Proof.
  intros Hwf Hget.
  pose proof (wf_Get n b v b' Hwf Hget) as Hwf'.
  pose proof (live_eq n b Hwf) as Hl. pose proof (live_eq n b' Hwf') as Hl'.
  rewrite (Get_eq n b Hwf) in Hget.
  destruct Hwf as [Hsz Hn Hlen Hs Hp Hcap Hav].
  destruct (Z.eqb_spec (start b) (pos b)) as [Heq | Hne]; [discriminate |].
  inversion Hget; subst v b'; clear Hget. cbn in Hl'.
  split; [| reflexivity].
  apply list_eq. intros i. rewrite contents_lookup.
  destruct i as [| j]; cbn [lookup list_lookup].
  - unfold slot. rewrite Hsz, Hl. clear Hwf' Hl Hl'.
    case_decide; mod_split; try (exfalso; lia); same_cell.
  - rewrite contents_lookup.
    unfold slot. cbn [start pos buffer size]. rewrite Hsz, Hl, Hl'. clear Hwf' Hl Hl'.
    repeat case_decide; mod_split; try (exfalso; lia).
    all: try reflexivity; same_cell.
Qed.

Lemma Pop_back n b v b' :
  wf n b -> Pop b = Done (v, b') ->
  contents b = contents b' ++ [v] /\ Evict b' = Evict b.
Proof.
  intros Hwf Hpop.
  pose proof (wf_Pop n b v b' Hwf Hpop) as Hwf'.
  pose proof (live_eq n b Hwf) as Hl. pose proof (live_eq n b' Hwf') as Hl'.
  rewrite (Pop_eq n b Hwf) in Hpop. cbv zeta in Hpop.
  destruct Hwf as [Hsz Hn Hlen Hs Hp Hcap Hav].
  destruct (Z.eqb_spec (start b) (pos b)) as [Heq | Hne]; [discriminate |].
  inversion Hpop; subst v b'; clear Hpop. cbn in Hl'.
  split; [| reflexivity].
  apply list_eq. intros i.
  rewrite lookup_app, !contents_lookup, contents_length.
  unfold slot. cbn [start pos buffer size]. rewrite Hsz, Hl, Hl'. clear Hwf' Hl Hl'.
  repeat case_decide; mod_split; try (exfalso; lia); cells.
  all: try reflexivity; same_cell.
Qed.

(** A removal waits exactly when the queue is empty. *)
Lemma contents_nil_iff n b : wf n b -> (contents b = [] <-> start b = pos b).
Proof.
  intros Hwf. rewrite <- (live_zero_iff n b Hwf), (live_avail n b Hwf).
  pose proof (live_bound n b Hwf). pose proof (contents_length b) as Hlen.
  split; intros H0.
  - rewrite H0 in Hlen. cbn in Hlen. lia.
  - destruct (contents b); [reflexivity | cbn in Hlen; lia].
Qed.

Lemma Get_progress n b :
  wf n b -> contents b <> [] -> exists v b', Get b = Done (v, b').
Proof.
  intros Hwf Hne. rewrite (Get_eq n b Hwf).
  destruct (Z.eqb_spec (start b) (pos b)) as [Heq | _]; [| eauto].
  exfalso. now apply Hne, (contents_nil_iff n b Hwf).
Qed.

Lemma Pop_progress n b :
  wf n b -> contents b <> [] -> exists v b', Pop b = Done (v, b').
Proof.
  intros Hwf Hne. rewrite (Pop_eq n b Hwf).
  destruct (Z.eqb_spec (start b) (pos b)) as [Heq | _]; [| cbv zeta; eauto].
  exfalso. now apply Hne, (contents_nil_iff n b Hwf).
Qed.

Lemma NBPush_progress n b v w :
  wf n b -> exists b' w', NBPush v b w = Done (b', w').
Proof.
  intros Hwf. rewrite (NBPush_eq n b v w Hwf). cbv zeta.
  destruct (_ =? _); eauto.
Qed.

End CBQueue.


(** ** src/circularbuffer.go: the client loops *)

Section CBLoops.
Context {A W : Type}.
Import CB.
Implicit Types (b : CircularBuffer A W) (v : option A) (w : W).
Implicit Types cb : option (option A -> W -> W).

Lemma full_iff n b : wf n b -> ((pos b + 1) mod n = start b <-> live b = n - 1).
Proof.
  intros Hwf. rewrite (live_eq n b Hwf).
  destruct Hwf as [Hsz Hn Hlen Hs Hp Hcap Hav].
  split; intros H; mod_split; lia.
Qed.

Lemma contents_New n b : 0 < n -> NewCircularBuffer (A:=A) (W:=W) n = Done b -> contents b = [].
Proof.
  intros Hn Hnew. pose proof (wf_New n b Hn Hnew) as Hwf.
  apply (contents_nil_iff n b Hwf).
  apply New_Done_inv in Hnew as [_ ->]. reflexivity.
Qed.

Lemma contents_set_Evict f b : contents (set_Evict f b) = contents b.
Proof. reflexivity. Qed.

Lemma deliver_nil cb w : deliver cb [] w = w.
Proof. destruct cb; reflexivity. Qed.

Lemma deliver_cons cb e es w :
  deliver cb (e :: es) w = deliver cb es (match cb with Some f => f e w | None => w end).
Proof. destruct cb; reflexivity. Qed.

Lemma NBPush_all_spec n vs : forall b w,
  wf n b ->
  let k := (length (contents b) + length vs - Z.to_nat (n - 1))%nat in
  exists b',
    NBPush_all vs b w = Done (b', deliver (Evict b) (take k (contents b ++ vs)) w) /\
    wf n b' /\ contents b' = drop k (contents b ++ vs) /\ Evict b' = Evict b.
Proof.
  induction vs as [| v vs IH]; intros b w Hwf k; subst k.
  - pose proof (live_bound n b Hwf) as Hb. pose proof (contents_length b) as Hlen.
    replace (length (contents b) + length (@nil (option A)) - Z.to_nat (n - 1))%nat
      with 0%nat by (cbn [length]; lia).
    exists b. cbn [NBPush_all take drop]. rewrite deliver_nil, app_nil_r. auto.
  - cbn [NBPush_all].
    destruct (NBPush_progress n b v w Hwf) as (b1 & w1 & Hpush).
    pose proof (wf_NBPush n b v w b1 w1 Hwf Hpush) as Hwf1.
    rewrite Hpush. cbn [bind fst snd].
    destruct (IH b1 w1 Hwf1) as (b' & Hrun & Hwf' & Hcont & Hev).
    pose proof (live_bound n b Hwf) as Hb. pose proof (contents_length b) as Hlen.
    pose proof (contents_length b1) as Hlen1.
    destruct (Z.eq_dec ((pos b + 1) mod n) (start b)) as [Hfull | Hroom].
    + destruct (NBPush_full n b v w b1 w1 Hwf Hfull Hpush) as (e & Happ & Hw1 & Hev1).
      apply (full_iff n b Hwf) in Hfull.
      assert (length (contents b1) = Z.to_nat (n - 1)) as Hl1.
      { apply (f_equal length) in Happ. rewrite length_app in Happ. cbn in Happ. lia. }
      replace (length (contents b) + length (v :: vs) - Z.to_nat (n - 1))%nat
        with (S (length (contents b1) + length vs - Z.to_nat (n - 1)))%nat
        by (cbn [length]; lia).
      replace (contents b ++ v :: vs) with (e :: (contents b1 ++ vs))
        by (rewrite (cons_middle v), app_assoc, Happ; reflexivity).
      cbn [take drop]. rewrite deliver_cons, <- Hw1.
      rewrite Hev1 in Hrun, Hev. exists b'. auto.
    + destruct (NBPush_room n b v w b1 w1 Hwf Hroom Hpush) as (Happ & Hw1 & Hev1).
      replace (length (contents b) + length (v :: vs) - Z.to_nat (n - 1))%nat
        with (length (contents b1) + length vs - Z.to_nat (n - 1))%nat
        by (rewrite Happ, length_app; cbn [length]; lia).
      replace (contents b ++ v :: vs) with (contents b1 ++ vs)
        by (rewrite Happ, <- app_assoc; reflexivity).
      subst w1. rewrite Hev1 in Hrun, Hev. exists b'. auto.
Qed.

Lemma Empty_iff n b : wf n b -> (Empty b = true <-> contents b = []).
Proof.
  intros Hwf. unfold Empty. rewrite Z.eqb_eq.
  rewrite (live_zero_iff n b Hwf). symmetry. apply (contents_nil_iff n b Hwf).
Qed.

Lemma Get_n_all n l : forall b,
  wf n b -> contents b = l ->
  exists b', Get_n (length l) b = Done (l, b') /\ wf n b' /\ contents b' = [] /\
             Evict b' = Evict b.
Proof.
  induction l as [| x l IH]; intros b Hwf Hc.
  - exists b. cbn. auto.
  - destruct (Get_progress n b Hwf) as (v & b1 & Hget); [congruence |].
    destruct (Get_front n b v b1 Hwf Hget) as [Hfront Hev1].
    rewrite Hc in Hfront. injection Hfront as -> Hl.
    destruct (IH b1 (wf_Get n b v b1 Hwf Hget) (eq_sym Hl)) as (b' & Hrun & Hwf' & Hnil & Hev).
    exists b'. cbn [Get_n length]. rewrite Hget. cbn [bind fst snd]. rewrite Hrun. cbn.
    rewrite Hev. auto.
Qed.

Lemma Pop_n_all n l : forall b,
  wf n b -> contents b = l ->
  exists b', Pop_n (length l) b = Done (rev l, b') /\ wf n b' /\ contents b' = [] /\
             Evict b' = Evict b.
Proof.
  induction l as [| x l IH] using rev_ind; intros b Hwf Hc.
  - exists b. cbn. auto.
  - destruct (Pop_progress n b Hwf) as (v & b1 & Hpop).
    { rewrite Hc. destruct l; discriminate. }
    destruct (Pop_back n b v b1 Hwf Hpop) as [Hback Hev1].
    rewrite Hc in Hback. apply app_inj_tail in Hback as [Hl ->].
    destruct (IH b1 (wf_Pop n b v b1 Hwf Hpop) (eq_sym Hl)) as (b' & Hrun & Hwf' & Hnil & Hev).
    exists b'. rewrite length_app, Nat.add_1_r, rev_unit. cbn [Pop_n].
    rewrite Hpop. cbn [bind fst snd]. rewrite Hrun. cbn.
    rewrite Hev. auto.
Qed.

End CBLoops.


(** ** src/circularbuffer.go: the properties of the buffer *)

Section CBClaims.
Context {A W : Type}.
Import CB.
Implicit Types (b : CircularBuffer A W) (v : option A) (w : W).

Lemma wf_counter_ok n b : wf n b -> counter_ok n b.
Proof.
  intros Hwf. split; [apply (wf_avail n b Hwf) |].
  rewrite (live_avail n b Hwf). apply (live_bound n b Hwf).
Qed.


(** Between the calls of one goroutine [len(b.avail)] equals
    [(n + pos - start) mod n] and lies in [0, n-1]; every [NBPush], [Get]
    and [Pop] that returns leaves a state with the same property. *)
Lemma counter_ok_between_calls n b :
  0 < n -> reachable n b ->
  counter_ok n b /\
  (forall v w b' w', NBPush v b w = Done (b', w') -> counter_ok n b') /\
  (forall v b', Get b = Done (v, b') -> counter_ok n b') /\
  (forall v b', Pop b = Done (v, b') -> counter_ok n b').
Proof.
  intros Hn Hr. pose proof (reachable_wf n b Hn Hr) as Hwf.
  split; [| split; [| split]].
  - now apply wf_counter_ok.
  - intros v w b' w' H. eapply wf_counter_ok, wf_NBPush; eassumption.
  - intros v b' H. eapply wf_counter_ok, wf_Get; eassumption.
  - intros v b' H. eapply wf_counter_ok, wf_Pop; eassumption.
Qed.

(** C3, as the code has it: for a buffer of capacity [n > 0], in every
    state that interleaving goroutines can reach, [len(b.avail)] plus the
    number of goroutines that have received from [avail] in [Get] or [Pop]
    and not yet run the locked body equals [(n + pos - start) mod n], and
    [len(b.avail)] lies in [0, n-1]; so [len(b.avail)] equals
    [(n + pos - start) mod n] whenever no goroutine is between its receive
    and its body.  In particular it does so before and after every
    [NBPush], [Get] and [Pop] of a goroutine that runs alone, and each of
    these calls keeps it so. *)
Theorem avail_and_held_tokens_count_used_cells n :
  0 < n ->
  (forall c : config (A:=A) (W:=W), running n c ->
     chan_len (avail (shared c)) + holders c =
       (n + pos (shared c) - start (shared c)) mod n /\
     0 <= holders c /\
     0 <= chan_len (avail (shared c)) <= n - 1 /\
     (holders c = 0 -> counter_ok n (shared c))) /\
  (forall b : CircularBuffer A W, reachable n b ->
     counter_ok n b /\
     (forall v w b' w', NBPush v b w = Done (b', w') -> counter_ok n b') /\
     (forall v b', Get b = Done (v, b') -> counter_ok n b') /\
     (forall v b', Pop b = Done (v, b') -> counter_ok n b')).
Proof.
  intros Hn. split.
  - intros c Hr. destruct (running_held n c Hn Hr) as [Hsz Hm Hlen Hs Hp Hcap Hk Hav].
    pose proof (Z.mod_pos_bound (n + pos (shared c) - start (shared c)) n) as Hb.
    assert (0 <= chan_len (avail (shared c))) as H0 by (unfold chan_len; lia).
    split; [exact Hav |]. split; [exact Hk |]. split; [lia |].
    intros Hz. unfold counter_ok. split; lia.
  - intros b Hr. now apply counter_ok_between_calls.
Qed.



(** C7: a buffer of capacity [n > 0] never reaches its fatal branches.
    Among goroutines that interleave ([running]): [NBPush] always returns,
    so its send on [avail] never falls to the panicking default; and a
    goroutine that has received its token from [avail] finds
    [start <> pos] when it runs the body of [Get] or [Pop], whatever the
    others did in between.  For one goroutine alone ([reachable]) this
    reads: [NBPush] returns, and once the receive in [Get] or [Pop] has
    succeeded the body returns. *)
Theorem fatal_branches_unreachable n :
  0 < n ->
  (forall c, running n c ->
     (forall v w, exists b' w', NBPush v (shared c) w = Done (b', w')) /\
     (0 < holders c ->
        start (shared c) <> pos (shared c) /\
        (exists v b', Get_locked (shared c) = Done (v, b')) /\
        (exists v b', Pop_locked (shared c) = Done (v, b')))) /\
  (forall b, reachable n b ->
     (forall v w, exists b' w', NBPush v b w = Done (b', w')) /\
     (forall b1, acquire b = Done b1 ->
        start b1 <> pos b1 /\
        (exists v b', Get_locked b1 = Done (v, b')) /\
        (exists v b', Pop_locked b1 = Done (v, b')))).
Proof.
  intros Hn.
  assert (forall c : config (A:=A) (W:=W), running n c ->
            (forall v w, exists b' w', NBPush v (shared c) w = Done (b', w')) /\
            (0 < holders c ->
               start (shared c) <> pos (shared c) /\
               (exists v b', Get_locked (shared c) = Done (v, b')) /\
               (exists v b', Pop_locked (shared c) = Done (v, b')))) as Hrun.
  { intros c Hr. pose proof (running_held n c Hn Hr) as Hh. split.
    - intros v w. rewrite (NBPush_eq_held n _ _ v w Hh). cbv zeta.
      destruct (_ =? _); eauto.
    - intros Hk. split; [apply (held_nonempty n _ _ Hh Hk) |]. split.
      + rewrite (Get_locked_eq n _ _ Hh Hk). eauto.
      + rewrite (Pop_locked_eq n _ _ Hh Hk). cbv zeta. eauto. }
  split; [exact Hrun |].
  intros b Hr. pose proof (reachable_running n b Hr) as Hc. split.
  - apply (Hrun _ Hc).
  - intros b1 Hacq.
    pose proof (running_step n _ _ Hc (step_acquire (mkConfig b 0) b1 Hacq)) as H1.
    apply (Hrun _ H1). cbn. lia.
Qed.

(** C10: [Get] leaves the backing array as it was: the cell at the old
    [start] still holds the value that was returned, and [pos], [size] and
    the callback are unchanged; only [start] moves on and [avail] loses one
    token. *)
Theorem Get_keeps_storage b v b' :
  Get b = Done (v, b') ->
  buffer b' = buffer b /\
  buffer b' !! Z.to_nat (start b) = Some v /\
  pos b' = pos b /\ size b' = size b /\ Evict b' = Evict b /\
  start b' = uadd (start b) 1 mod size b /\
  cap (avail b') = cap (avail b) /\
  chan_len (avail b') = chan_len (avail b) - 1.
Proof.
  unfold Get, acquire, recv, Get_locked, chan_len.
  destruct (queue (avail b)) as [| x q] eqn:Hq; cbn [bind]; [discriminate |].
  cbn [start pos buffer size avail Evict].
  destruct (start b =? pos b); [discriminate |].
  unfold index. destruct (buffer b !! Z.to_nat (start b)) as [x0 |] eqn:Hx; cbn [bind];
    [| discriminate].
  unfold urem. destruct (size b =? 0); cbn [bind]; [discriminate |].
  intros H; inversion H; subst v b'; clear H.
  cbn [start pos buffer size avail Evict queue cap length].
  repeat split; try assumption; lia.
Qed.

(** Where [Get] reads and how it advances [start]. *)
Lemma Get_reads_start n b v b' :
  wf n b -> Get b = Done (v, b') ->
  buffer b !! Z.to_nat (start b) = Some v /\ start b' = (start b + 1) mod n.
Proof.
  intros Hwf Hget. rewrite (Get_eq n b Hwf) in Hget.
  destruct Hwf as [Hsz Hn Hlen Hst Hp Hcap Hav].
  destruct (start b =? pos b); [discriminate |].
  inversion Hget; subst v b'; clear Hget. cbn [start]. split; [| reflexivity].
  destruct (lookup_lt_is_Some_2 (buffer b) (Z.to_nat (start b))) as [x Hx]; [lia |].
  now rewrite Hx.
Qed.

(** Where [Pop] reads, what it clears, and how it moves [pos] back. *)
Lemma Pop_reads_pos n b v b' :
  wf n b -> Pop b = Done (v, b') ->
  pos b' = (pos b - 1 + n) mod n /\
  buffer b !! Z.to_nat (pos b') = Some v /\
  buffer b' !! Z.to_nat (pos b') = Some Nil.
Proof.
  intros Hwf Hpop. rewrite (Pop_eq n b Hwf) in Hpop. cbv zeta in Hpop.
  destruct Hwf as [Hsz Hn Hlen Hst Hp Hcap Hav].
  destruct (start b =? pos b); [discriminate |].
  inversion Hpop; subst v b'; clear Hpop. cbn [pos buffer].
  assert (0 <= (n + pos b - 1) mod n < n) as Hr by (apply Z.mod_pos_bound; lia).
  split; [f_equal; lia |]. split.
  - destruct (lookup_lt_is_Some_2 (buffer b) (Z.to_nat ((n + pos b - 1) mod n))) as [x Hx];
      [lia |]. now rewrite Hx.
  - apply list_lookup_insert_eq. lia.
Qed.

(** Pushing at most [n - 1] items into a fresh buffer evicts nothing. *)
Lemma NBPush_few n b0 f vs w :
  NewCircularBuffer n = Done b0 ->
  Z.of_nat (length vs) <= n - 1 ->
  exists b1, NBPush_all vs (set_Evict f b0) w = Done (b1, w) /\ wf n b1 /\ contents b1 = vs.
Proof.
  intros Hnew Hlen. assert (0 < n) as Hn by lia.
  pose proof (wf_set_Evict n b0 f (wf_New n b0 Hn Hnew)) as Hwf0.
  pose proof (contents_New n b0 Hn Hnew) as Hc0.
  destruct (NBPush_all_spec n vs (set_Evict f b0) w Hwf0) as (b1 & Hpush & Hwf1 & Hc1 & _).
  rewrite contents_set_Evict, Hc0 in Hpush, Hc1. cbn [length app Nat.add] in Hpush, Hc1.
  replace (length vs - Z.to_nat (n - 1))%nat with 0%nat in Hpush, Hc1 by lia.
  rewrite take_0, deliver_nil in Hpush. rewrite drop_0 in Hc1.
  exists b1. auto.
Qed.

(** C5: after at most [n - 1] pushes into a fresh buffer of capacity [n]
    (with or without a callback), as many [Get] calls return the pushed
    values in the order they were pushed, and the buffer is then empty;
    each [Get] returns the cell at [start] and sets [start] to
    [(start + 1) mod n]. *)
Theorem Get_is_fifo n b0 f vs w :
  NewCircularBuffer n = Done b0 ->
  Z.of_nat (length vs) <= n - 1 ->
  (exists b1 b2,
     NBPush_all vs (set_Evict f b0) w = Done (b1, w) /\
     Get_n (length vs) b1 = Done (vs, b2) /\
     Empty b2 = true) /\
  (forall b v b', reachable n b -> Get b = Done (v, b') ->
     buffer b !! Z.to_nat (start b) = Some v /\ start b' = (start b + 1) mod n).
Proof.
  intros Hnew Hlen. assert (0 < n) as Hn by lia.
  split.
  - destruct (NBPush_few n b0 f vs w Hnew Hlen) as (b1 & Hpush & Hwf1 & Hc1).
    destruct (Get_n_all n vs b1 Hwf1 Hc1) as (b2 & Hget & Hwf2 & Hc2 & _).
    exists b1, b2. split; [assumption |]. split; [assumption |].
    now apply (Empty_iff n b2 Hwf2).
  - intros b v b' Hr Hget. apply (Get_reads_start n b v b'); [| assumption].
    now apply reachable_wf.
Qed.

(** C6: after at most [n - 1] pushes into a fresh buffer of capacity [n],
    as many [Pop] calls return the pushed values in the reverse of the order
    they were pushed, and the buffer is then empty; each [Pop] sets [pos] to
    [(pos - 1 + n) mod n], returns the cell there and clears it. *)
Theorem Pop_is_lifo n b0 f vs w :
  NewCircularBuffer n = Done b0 ->
  Z.of_nat (length vs) <= n - 1 ->
  (exists b1 b2,
     NBPush_all vs (set_Evict f b0) w = Done (b1, w) /\
     Pop_n (length vs) b1 = Done (rev vs, b2) /\
     Empty b2 = true) /\
  (forall b v b', reachable n b -> Pop b = Done (v, b') ->
     pos b' = (pos b - 1 + n) mod n /\
     buffer b !! Z.to_nat (pos b') = Some v /\
     buffer b' !! Z.to_nat (pos b') = Some Nil).
Proof.
  intros Hnew Hlen. assert (0 < n) as Hn by lia.
  split.
  - destruct (NBPush_few n b0 f vs w Hnew Hlen) as (b1 & Hpush & Hwf1 & Hc1).
    destruct (Pop_n_all n vs b1 Hwf1 Hc1) as (b2 & Hpop & Hwf2 & Hc2 & _).
    exists b1, b2. split; [assumption |]. split; [assumption |].
    now apply (Empty_iff n b2 Hwf2).
  - intros b v b' Hr Hpop. apply (Pop_reads_pos n b v b'); [| assumption].
    now apply reachable_wf.
Qed.

End CBClaims.


(** ** src/unnamed/part_002: the calls on a well-formed buffer *)

Section RevSteps.
Context {A : Type}.
Import Rev.
Implicit Types (b : CircularBuffer A) (v : option A).

Lemma rev_live_eq n b : wf n b -> live b = (n + pos b - start b) mod n.
Proof. intros Hwf. unfold live. now rewrite (wf_size n b Hwf). Qed.

Lemma rev_live_avail n b : wf n b -> chan_len (avail b) = live b.
Proof. intros Hwf. rewrite (rev_live_eq n b Hwf). apply (wf_avail n b Hwf). Qed.

Lemma rev_live_bound n b : wf n b -> 0 <= live b <= n - 1.
Proof.
  intros Hwf. rewrite (rev_live_eq n b Hwf).
  pose proof (wf_n n b Hwf).
  pose proof (Z.mod_pos_bound (n + pos b - start b) n). lia.
Qed.

Lemma rev_live_zero_iff n b : wf n b -> (chan_len (avail b) = 0 <-> start b = pos b).
Proof.
  intros [Hsz Hn Hlen Hs Hp Hcap Hav]. rewrite Hav. split; intros H; mod_split; lia.
Qed.

Lemma rev_queue_nonempty n b : wf n b -> start b <> pos b -> queue (avail b) <> [].
Proof.
  intros Hwf Hne Hq. apply Hne, (rev_live_zero_iff n b Hwf).
  unfold chan_len. now rewrite Hq.
Qed.

Lemma rev_evicting_eq n b : wf n b -> evicting b = ((pos b + 1) mod n =? start b).
Proof.
  intros [Hsz Hn Hlen Hs Hp Hcap Hav].
  pose proof uint_modulus_val as Hm. pose proof max_int_val as Hi.
  unfold evicting. rewrite uadd_exact by lia. rewrite Hsz, urem_Done by lia. reflexivity.
Qed.

Lemma p2_New_Done_inv n b :
  P2.NewCircularBuffer n = Done b ->
  0 <= n <= max_int /\ b = mkCB 0 0 (replicate (Z.to_nat n) Nil) n (mkChan [] n).
Proof.
  unfold P2.NewCircularBuffer, make_slice, make_chan.
  destruct (Z.leb_spec 0 n); destruct (Z.leb_spec n max_int); cbn;
    intros Heq; try discriminate.
  inversion Heq. split; [lia | reflexivity].
Qed.

Lemma p2_wf_New n b : 0 < n -> P2.NewCircularBuffer n = Done b -> wf n b.
Proof.
  intros Hpos H. apply p2_New_Done_inv in H as [Hn ->].
  constructor; cbn; try lia.
  - rewrite length_replicate. lia.
  - unfold chan_len. cbn. mod_split. lia.
Qed.

Lemma p2_NBPush_eq n b v :
  wf n b ->
  P2.NBPush v b =
    let pos1 := (pos b + 1) mod n in
    let buf1 := <[Z.to_nat (pos b) := v]> (buffer b) in
    if pos1 =? start b then
      Done (default Nil (buf1 !! Z.to_nat (start b)),
            mkCB ((start b + 1) mod n) pos1 (<[Z.to_nat (start b) := Nil]> buf1) n (avail b))
    else
      Done (Nil, mkCB (start b) pos1 buf1 n (mkChan (queue (avail b) ++ [true]) n)).
Proof.
  intros [Hsz Hn Hlen Hs Hp Hcap Hav].
  pose proof uint_modulus_val as Hm. pose proof max_int_val as Hi.
  unfold P2.NBPush.
  rewrite store_Done by lia. cbn [bind].
  rewrite uadd_exact by lia. rewrite Hsz. rewrite urem_Done by lia. cbn [bind].
  cbv zeta.
  destruct (Z.eqb_spec ((pos b + 1) mod n) (start b)) as [Heq | Hne].
  - rewrite (index_Done _ _ Nil) by (rewrite length_insert; lia). cbn [bind].
    rewrite store_Done by (rewrite length_insert; lia). cbn [bind].
    rewrite uadd_exact by lia. rewrite urem_Done by lia. reflexivity.
  - unfold try_send. rewrite Hcap, Hav.
    destruct (Z.ltb_spec ((n + pos b - start b) mod n) n) as [Hlt | Hge].
    + reflexivity.
    + pose proof (Z.mod_pos_bound (n + pos b - start b) n). lia.
Qed.

Lemma p2_acquire_eq n b :
  wf n b ->
  P2.acquire b =
    if start b =? pos b then Block
    else Done (mkCB (start b) (pos b) (buffer b) (size b) (mkChan (tail (queue (avail b))) n)).
Proof.
  intros Hwf. pose proof (rev_live_zero_iff n b Hwf) as Hz.
  destruct Hwf as [Hsz Hn Hlen Hs Hp Hcap Hav].
  unfold P2.acquire, recv. unfold chan_len in Hz.
  destruct (Z.eqb_spec (start b) (pos b)) as [Heq | Hne];
    destruct (queue (avail b)) as [| x q] eqn:Hq; cbn [length tail] in *.
  - reflexivity.
  - exfalso. lia.
  - exfalso. apply Hne, Hz. reflexivity.
  - rewrite Hcap. reflexivity.
Qed.

Lemma p2_Get_eq n b :
  wf n b ->
  P2.Get b =
    if start b =? pos b then Block
    else Done (default Nil (buffer b !! Z.to_nat (start b)),
               mkCB ((start b + 1) mod n) (pos b) (buffer b) n
                 (mkChan (tail (queue (avail b))) n)).
Proof.
  intros Hwf. unfold P2.Get. rewrite (p2_acquire_eq n b Hwf).
  destruct Hwf as [Hsz Hn Hlen Hs Hp Hcap Hav].
  pose proof uint_modulus_val as Hm. pose proof max_int_val as Hi.
  destruct (Z.eqb_spec (start b) (pos b)) as [Heq | Hne]; [reflexivity |].
  cbn [bind]. unfold P2.Get_locked. cbn [start pos buffer size avail].
  destruct (Z.eqb_spec (start b) (pos b)); [contradiction |].
  rewrite (index_Done _ _ Nil) by lia. cbn [bind].
  rewrite uadd_exact by lia. rewrite Hsz. rewrite urem_Done by lia. reflexivity.
Qed.

Lemma p2_Pop_eq n b :
  wf n b ->
  P2.Pop b =
    if start b =? pos b then Block
    else
      let pos1 := (n + pos b - 1) mod n in
      Done (default Nil (buffer b !! Z.to_nat pos1),
            mkCB (start b) pos1 (<[Z.to_nat pos1 := Nil]> (buffer b)) n
              (mkChan (tail (queue (avail b))) n)).
Proof.
  intros Hwf. unfold P2.Pop. rewrite (p2_acquire_eq n b Hwf).
  destruct Hwf as [Hsz Hn Hlen Hs Hp Hcap Hav].
  pose proof uint_modulus_val as Hm. pose proof max_int_val as Hi.
  destruct (Z.eqb_spec (start b) (pos b)) as [Heq | Hne]; [reflexivity |].
  cbn [bind]. unfold P2.Pop_locked. cbn [start pos buffer size avail].
  destruct (Z.eqb_spec (start b) (pos b)); [contradiction |].
  rewrite Hsz, uadd_exact by lia. rewrite usub_exact by lia.
  rewrite urem_Done by lia. cbn [bind]. cbv zeta.
  assert (0 <= (n + pos b - 1) mod n < n) as Hr by (apply Z.mod_pos_bound; lia).
  rewrite (index_Done _ _ Nil) by lia. cbn [bind].
  rewrite store_Done by lia. reflexivity.
Qed.

(** part_001's [Get] also stores nil at [pos]. *)
Lemma p1_Get_eq n b :
  wf n b ->
  P1.Get b =
    if start b =? pos b then Block
    else Done (default Nil (buffer b !! Z.to_nat (start b)),
               mkCB ((start b + 1) mod n) (pos b) (<[Z.to_nat (pos b) := Nil]> (buffer b)) n
                 (mkChan (tail (queue (avail b))) n)).
Proof.
  intros Hwf. unfold P1.Get. change (P1.acquire b) with (P2.acquire b).
  rewrite (p2_acquire_eq n b Hwf).
  destruct Hwf as [Hsz Hn Hlen Hs Hp Hcap Hav].
  pose proof uint_modulus_val as Hm. pose proof max_int_val as Hi.
  destruct (Z.eqb_spec (start b) (pos b)) as [Heq | Hne]; [reflexivity |].
  cbn [bind]. unfold P1.Get_locked. cbn [start pos buffer size avail].
  destruct (Z.eqb_spec (start b) (pos b)); [contradiction |].
  rewrite (index_Done _ _ Nil) by lia. cbn [bind].
  rewrite store_Done by lia. cbn [bind].
  rewrite uadd_exact by lia. rewrite Hsz. rewrite urem_Done by lia. reflexivity.
Qed.

(** The two revisions share every call but [Get]. *)
Lemma p1_New_eq n : P1.NewCircularBuffer (A:=A) n = P2.NewCircularBuffer n.
Proof. reflexivity. Qed.

Lemma p1_NBPush_same v b : P1.NBPush v b = P2.NBPush v b.
Proof. reflexivity. Qed.

Lemma p1_Pop_same b : P1.Pop b = P2.Pop b.
Proof. reflexivity. Qed.

Lemma p1_NBPush_all_same vs b : P1.NBPush_all vs b = P2.NBPush_all vs b.
Proof. reflexivity. Qed.

(** *** The invariant is kept, and the counter moves with the queue *)

Lemma p2_wf_NBPush n b v r b' :
  wf n b -> P2.NBPush v b = Done (r, b') ->
  wf n b' /\
  chan_len (avail b') = chan_len (avail b) + (if evicting b then 0 else 1).
Proof.
  intros Hwf. rewrite (p2_NBPush_eq n b v Hwf), (rev_evicting_eq n b Hwf). cbv zeta.
  destruct Hwf as [Hsz Hn Hlen Hs Hp Hcap Hav].
  destruct (Z.eqb_spec ((pos b + 1) mod n) (start b)) as [Heq | Hne];
    intros H; inversion H; subst r b'; clear H.
  - split; [| cbn; lia].
    constructor; cbn; try assumption; try reflexivity.
    + rewrite !length_insert. assumption.
    + apply Z.mod_pos_bound; lia.
    + apply Z.mod_pos_bound; lia.
    + rewrite Hav. mod_split; lia.
  - split; [| cbn [avail]; rewrite chan_len_snoc; reflexivity].
    constructor; cbn; try assumption; try reflexivity.
    + rewrite length_insert. assumption.
    + apply Z.mod_pos_bound; lia.
    + rewrite chan_len_snoc. unfold chan_len in Hav. rewrite Hav.
      mod_split; lia.
Qed.

Lemma p2_wf_Get n b v b' :
  wf n b -> P2.Get b = Done (v, b') ->
  wf n b' /\ chan_len (avail b') = chan_len (avail b) - 1.
Proof.
  intros Hwf. rewrite (p2_Get_eq n b Hwf).
  pose proof (rev_queue_nonempty n b Hwf) as Hq.
  destruct Hwf as [Hsz Hn Hlen Hs Hp Hcap Hav].
  destruct (Z.eqb_spec (start b) (pos b)) as [Heq | Hne]; [discriminate |].
  intros H; inversion H; subst v b'; clear H.
  split; [| cbn [avail]; rewrite chan_len_tail by auto; reflexivity].
  constructor; cbn; try assumption; try reflexivity.
  - apply Z.mod_pos_bound; lia.
  - rewrite chan_len_tail by auto. unfold chan_len in Hav. rewrite Hav.
    mod_split; lia.
Qed.

Lemma p1_wf_Get n b v b' :
  wf n b -> P1.Get b = Done (v, b') ->
  wf n b' /\ chan_len (avail b') = chan_len (avail b) - 1.
Proof.
  intros Hwf. rewrite (p1_Get_eq n b Hwf).
  pose proof (rev_queue_nonempty n b Hwf) as Hq.
  destruct Hwf as [Hsz Hn Hlen Hs Hp Hcap Hav].
  destruct (Z.eqb_spec (start b) (pos b)) as [Heq | Hne]; [discriminate |].
  intros H; inversion H; subst v b'; clear H.
  split; [| cbn [avail]; rewrite chan_len_tail by auto; reflexivity].
  constructor; cbn; try assumption; try reflexivity.
  - rewrite length_insert. assumption.
  - apply Z.mod_pos_bound; lia.
  - rewrite chan_len_tail by auto. unfold chan_len in Hav. rewrite Hav.
    mod_split; lia.
Qed.

Lemma p2_wf_Pop n b v b' :
  wf n b -> P2.Pop b = Done (v, b') ->
  wf n b' /\ chan_len (avail b') = chan_len (avail b) - 1.
Proof.
  intros Hwf. rewrite (p2_Pop_eq n b Hwf). cbv zeta.
  pose proof (rev_queue_nonempty n b Hwf) as Hq.
  destruct Hwf as [Hsz Hn Hlen Hs Hp Hcap Hav].
  destruct (Z.eqb_spec (start b) (pos b)) as [Heq | Hne]; [discriminate |].
  intros H; inversion H; subst v b'; clear H.
  split; [| cbn [avail]; rewrite chan_len_tail by auto; reflexivity].
  constructor; cbn; try assumption; try reflexivity.
  - rewrite length_insert. assumption.
  - apply Z.mod_pos_bound; lia.
  - rewrite chan_len_tail by auto. unfold chan_len in Hav. rewrite Hav.
    mod_split; lia.
Qed.

End RevSteps.


(** ** src/unnamed/part_001 and part_002: the buffer as a queue *)

Section RevQueue.
Context {A : Type}.
Import Rev.
Implicit Types (b : CircularBuffer A) (v : option A) (t : tally).

Lemma rev_contents_length b : length (contents b) = Z.to_nat (live b).
Proof. unfold contents. now rewrite length_fmap, length_seqZ. Qed.

Lemma rev_contents_lookup b (i : nat) :
  contents b !! i =
    if decide (Z.of_nat i < live b) then Some (slot b (Z.of_nat i)) else None.
Proof.
  unfold contents. rewrite list_lookup_fmap.
  destruct (decide (Z.of_nat i < live b)) as [Hlt | Hge].
  - rewrite lookup_seqZ_lt by assumption. reflexivity.
  - rewrite lookup_seqZ_ge by lia. reflexivity.
Qed.

Lemma rev_full_iff n b : wf n b -> ((pos b + 1) mod n = start b <-> live b = n - 1).
Proof.
  intros Hwf. rewrite (rev_live_eq n b Hwf).
  destruct Hwf as [Hsz Hn Hlen Hs Hp Hcap Hav].
  split; intros H; mod_split; lia.
Qed.

Lemma rev_contents_New n b :
  0 < n -> P2.NewCircularBuffer (A:=A) n = Done b -> contents b = [].
Proof.
  intros Hn Hnew. pose proof (rev_contents_length b) as Hlen.
  apply p2_New_Done_inv in Hnew as [_ ->].
  unfold live in Hlen. cbn in Hlen. rewrite Z.add_0_r, Z.sub_0_r, Z.mod_same in Hlen by lia.
  now destruct (contents _).
Qed.

Lemma p2_NBPush_room n b v r b' :
  wf n b -> (pos b + 1) mod n <> start b ->
  P2.NBPush v b = Done (r, b') ->
  contents b' = contents b ++ [v] /\ r = Nil.
Proof.
  intros Hwf Hroom Hpush.
  destruct (p2_wf_NBPush n b v r b' Hwf Hpush) as [Hwf' _].
  pose proof (rev_live_eq n b Hwf) as Hl. pose proof (rev_live_eq n b' Hwf') as Hl'.
  rewrite (p2_NBPush_eq n b v Hwf) in Hpush. cbv zeta in Hpush.
  destruct Hwf as [Hsz Hn Hlen Hs Hp Hcap Hav].
  destruct (Z.eqb_spec ((pos b + 1) mod n) (start b)) as [Heq | Hne]; [contradiction |].
  inversion Hpush; subst r b'; clear Hpush. cbn in Hl'.
  split; [| reflexivity].
  apply list_eq. intros i.
  rewrite lookup_app, !rev_contents_lookup, rev_contents_length.
  unfold slot. cbn [start pos buffer size]. rewrite Hsz, Hl, Hl'.
  repeat case_decide.
  all: clear Hwf' Hl Hl'; mod_split; try (exfalso; lia).
  all: cells; reflexivity.
Qed.

Lemma p2_NBPush_full n b v r b' :
  wf n b -> (pos b + 1) mod n = start b ->
  P2.NBPush v b = Done (r, b') ->
  contents b ++ [v] = r :: contents b'.
Proof.
  intros Hwf Hfull Hpush.
  destruct (p2_wf_NBPush n b v r b' Hwf Hpush) as [Hwf' _].
  pose proof (rev_live_eq n b Hwf) as Hl. pose proof (rev_live_eq n b' Hwf') as Hl'.
  rewrite (p2_NBPush_eq n b v Hwf) in Hpush. cbv zeta in Hpush.
  destruct Hwf as [Hsz Hn Hlen Hs Hp Hcap Hav].
  destruct (Z.eqb_spec ((pos b + 1) mod n) (start b)) as [Heq | Hne]; [| contradiction].
  inversion Hpush; subst r b'; clear Hpush. cbn in Hl'.
  apply list_eq. intros i.
  rewrite lookup_app, rev_contents_lookup, rev_contents_length.
  destruct i as [| j]; cbn [lookup list_lookup].
  - unfold slot. rewrite Hsz, Hl. clear Hwf' Hl Hl'.
    case_decide; mod_split; try (exfalso; lia); cells.
    all: try reflexivity; same_cell.
  - rewrite rev_contents_lookup.
    unfold slot. cbn [start pos buffer size]. rewrite Hsz, Hl, Hl'. clear Hwf' Hl Hl'.
    repeat case_decide; mod_split; try (exfalso; lia); cells.
    all: try reflexivity; same_cell.
Qed.

Lemma p2_NBPush_progress n b v : wf n b -> exists r b', P2.NBPush v b = Done (r, b').
Proof.
  intros Hwf. rewrite (p2_NBPush_eq n b v Hwf). cbv zeta.
  destruct (_ =? _); eauto.
Qed.

(** A loop of pushes: what each call returns, what the run counts, and
    what is left in the buffer. *)
Lemma p2_NBPush_all_spec n vs : forall b t,
  wf n b ->
  let k := (length (contents b) + length vs - Z.to_nat (n - 1))%nat in
  exists b',
    P2.NBPush_all vs b =
      Done (replicate (length vs - k) Nil ++ take k (contents b ++ vs), b') /\
    P2.run (CallNBPush <$> vs) b t =
      Done (b', mkTally (pushes t + Z.of_nat (length vs)) (removals t)
                  (evictions t + Z.of_nat k)) /\
    wf n b' /\ contents b' = drop k (contents b ++ vs).
Proof.
  induction vs as [| v vs IH]; intros b t Hwf k; subst k.
  - pose proof (rev_live_bound n b Hwf) as Hb. pose proof (rev_contents_length b) as Hlen.
    replace (length (contents b) + length (@nil (option A)) - Z.to_nat (n - 1))%nat
      with 0%nat by (cbn [length]; lia).
    exists b. cbn. rewrite app_nil_r, !Z.add_0_r. destruct t. auto.
  - cbn [P2.NBPush_all fmap list_fmap P2.run P2.step].
    destruct (p2_NBPush_progress n b v Hwf) as (r & b1 & Hpush).
    destruct (p2_wf_NBPush n b v r b1 Hwf Hpush) as [Hwf1 _].
    rewrite Hpush. cbn [bind fst snd].
    rewrite (rev_evicting_eq n b Hwf).
    pose proof (rev_live_bound n b Hwf) as Hb. pose proof (rev_contents_length b) as Hlen.
    pose proof (rev_contents_length b1) as Hlen1.
    destruct (Z.eqb_spec ((pos b + 1) mod n) (start b)) as [Hfull | Hroom].
    + pose proof (p2_NBPush_full n b v r b1 Hwf Hfull Hpush) as Happ.
      apply (rev_full_iff n b Hwf) in Hfull.
      assert (length (contents b1) = Z.to_nat (n - 1)) as Hl1.
      { apply (f_equal length) in Happ. rewrite length_app in Happ. cbn in Happ. lia. }
      destruct (IH b1 (mkTally (pushes t + 1) (removals t) (evictions t + 1)) Hwf1)
        as (b' & Hall & Hrun & Hwf' & Hcont).
      replace (length (contents b1) + length vs - Z.to_nat (n - 1))%nat
        with (length vs) in Hall, Hrun, Hcont by lia.
      replace (length (contents b) + length (v :: vs) - Z.to_nat (n - 1))%nat
        with (S (length vs)) by (cbn [length]; lia).
      replace (contents b ++ v :: vs) with (r :: (contents b1 ++ vs))
        by (rewrite (cons_middle v), app_assoc, Happ; reflexivity).
      rewrite Nat.sub_diag in Hall |- *. cbn [replicate app] in Hall |- *.
      exists b'. rewrite Hall, Hrun. cbn [bind fst snd take drop pushes removals evictions length].
      split; [reflexivity |]. split; [| auto].
      do 2 f_equal. f_equal; lia.
    + destruct (p2_NBPush_room n b v r b1 Hwf Hroom Hpush) as (Happ & ->).
      assert (live b <> n - 1) as Hnf by (rewrite <- (rev_full_iff n b Hwf); assumption).
      destruct (IH b1 (mkTally (pushes t + 1) (removals t) (evictions t + 0)) Hwf1)
        as (b' & Hall & Hrun & Hwf' & Hcont).
      replace (length (contents b1) + length vs - Z.to_nat (n - 1))%nat
        with (length (contents b) + length (v :: vs) - Z.to_nat (n - 1))%nat
        in Hall, Hrun, Hcont by (rewrite Happ, length_app; cbn [length]; lia).
      replace (contents b1 ++ vs) with (contents b ++ v :: vs) in Hall, Hcont
        by (rewrite Happ, <- app_assoc; reflexivity).
      set (k := (length (contents b) + length (v :: vs) - Z.to_nat (n - 1))%nat) in *.
      assert (k <= length vs)%nat as Hk by (subst k; cbn [length]; lia).
      exists b'. rewrite Hall, Hrun. cbn [bind fst snd pushes removals evictions length].
      replace (S (length vs) - k)%nat with (S (length vs - k)) by lia.
      cbn [replicate app]. split; [reflexivity |]. split; [| auto].
      do 2 f_equal. f_equal; lia.
Qed.

End RevQueue.


(** ** src/unnamed/part_001 and part_002: [Length] *)

Section RevLength.
Context {A : Type}.
Import Rev.
Implicit Types (b : CircularBuffer A) (v : option A) (t : tally) (c : call (A:=A)).

Lemma p2_step_balance n c b t b' t' :
  wf n b -> P2.step c b t = Done (b', t') ->
  wf n b' /\
  P2.Length b' - balance t' = P2.Length b - balance t /\
  pushes t' = pushes t + (if is_push c then 1 else 0) /\
  removals t' = removals t + (if is_push c then 0 else 1).
Proof.
  intros Hwf. unfold P2.Length, balance. destruct c as [v | |]; cbn [P2.step is_push].
  - destruct (P2.NBPush v b) as [[r b1] | |] eqn:Hpush; cbn [bind fst snd]; try discriminate.
    intros H; inversion H; subst b' t'; clear H. cbn [pushes removals evictions].
    destruct (p2_wf_NBPush n b v r b1 Hwf Hpush) as [Hwf1 Hlen].
    rewrite Hlen. destruct (evicting b); (split; [assumption | repeat split; lia]).
  - destruct (P2.Get b) as [[r b1] | |] eqn:Hget; cbn [bind fst snd]; try discriminate.
    intros H; inversion H; subst b' t'; clear H. cbn [pushes removals evictions].
    destruct (p2_wf_Get n b r b1 Hwf Hget) as [Hwf1 Hlen].
    rewrite Hlen. (split; [assumption | repeat split; lia]).
  - destruct (P2.Pop b) as [[r b1] | |] eqn:Hpop; cbn [bind fst snd]; try discriminate.
    intros H; inversion H; subst b' t'; clear H. cbn [pushes removals evictions].
    destruct (p2_wf_Pop n b r b1 Hwf Hpop) as [Hwf1 Hlen].
    rewrite Hlen. (split; [assumption | repeat split; lia]).
Qed.

Lemma p1_step_balance n c b t b' t' :
  wf n b -> P1.step c b t = Done (b', t') ->
  wf n b' /\
  P1.Length b' - balance t' = P1.Length b - balance t /\
  pushes t' = pushes t + (if is_push c then 1 else 0) /\
  removals t' = removals t + (if is_push c then 0 else 1).
Proof.
  intros Hwf. destruct c as [v | |].
  - apply (p2_step_balance n (CallNBPush v) b t b' t' Hwf).
  - unfold P1.Length, balance. cbn [P1.step is_push].
    destruct (P1.Get b) as [[r b1] | |] eqn:Hget; cbn [bind fst snd]; try discriminate.
    intros H; inversion H; subst b' t'; clear H. cbn [pushes removals evictions].
    destruct (p1_wf_Get n b r b1 Hwf Hget) as [Hwf1 Hlen].
    rewrite Hlen. (split; [assumption | repeat split; lia]).
  - apply (p2_step_balance n CallPop b t b' t' Hwf).
Qed.

Lemma p2_run_balance n cs : forall b t b' t',
  wf n b -> P2.run cs b t = Done (b', t') ->
  wf n b' /\
  P2.Length b' - balance t' = P2.Length b - balance t /\
  pushes t' = pushes t + pushes_in cs /\
  removals t' = removals t + removals_in cs.
Proof.
  induction cs as [| c cs IH]; intros b t b' t' Hwf; cbn [P2.run pushes_in removals_in].
  - intros H; inversion H; subst. (split; [assumption | repeat split; lia]).
  - destruct (P2.step c b t) as [[b1 t1] | |] eqn:Hstep; cbn [bind fst snd]; try discriminate.
    intros Hrun.
    destruct (p2_step_balance n c b t b1 t1 Hwf Hstep) as (Hwf1 & Hb1 & Hp1 & Hr1).
    destruct (IH b1 t1 b' t' Hwf1 Hrun) as (Hwf' & Hb' & Hp' & Hr').
    (split; [assumption | repeat split; lia]).
Qed.

Lemma p1_run_balance n cs : forall b t b' t',
  wf n b -> P1.run cs b t = Done (b', t') ->
  wf n b' /\
  P1.Length b' - balance t' = P1.Length b - balance t /\
  pushes t' = pushes t + pushes_in cs /\
  removals t' = removals t + removals_in cs.
Proof.
  induction cs as [| c cs IH]; intros b t b' t' Hwf; cbn [P1.run pushes_in removals_in].
  - intros H; inversion H; subst. (split; [assumption | repeat split; lia]).
  - destruct (P1.step c b t) as [[b1 t1] | |] eqn:Hstep; cbn [bind fst snd]; try discriminate.
    intros Hrun.
    destruct (p1_step_balance n c b t b1 t1 Hwf Hstep) as (Hwf1 & Hb1 & Hp1 & Hr1).
    destruct (IH b1 t1 b' t' Hwf1 Hrun) as (Hwf' & Hb' & Hp' & Hr').
    (split; [assumption | repeat split; lia]).
Qed.

(** C8: after any sequence of calls that all return, started on a fresh
    buffer of capacity [n > 0], [Length()] is the number of pushes less the
    number of removals and evictions, and lies in [0, n-1]; in part_001 and
    in part_002. *)
Theorem Length_counts_what_is_left n cs b0 :
  0 < n -> P2.NewCircularBuffer n = Done b0 ->
  (forall b t, P1.run cs b0 (mkTally 0 0 0) = Done (b, t) ->
     P1.Length b = pushes t - (removals t + evictions t) /\
     0 <= P1.Length b <= n - 1 /\
     pushes t = pushes_in cs /\ removals t = removals_in cs) /\
  (forall b t, P2.run cs b0 (mkTally 0 0 0) = Done (b, t) ->
     P2.Length b = pushes t - (removals t + evictions t) /\
     0 <= P2.Length b <= n - 1 /\
     pushes t = pushes_in cs /\ removals t = removals_in cs).
Proof.
  intros Hn Hnew. pose proof (p2_wf_New n b0 Hn Hnew) as Hwf0.
  assert (P2.Length b0 = 0) as Hl0.
  { apply p2_New_Done_inv in Hnew as [_ ->]. reflexivity. }
  split; intros b t Hrun.
  - destruct (p1_run_balance n cs b0 _ b t Hwf0 Hrun) as (Hwf & Hbal & Hp & Hr).
    change (P1.Length b0) with (P2.Length b0) in Hbal.
    unfold balance in Hbal. cbn [pushes removals evictions] in Hbal, Hp, Hr.
    pose proof (rev_live_bound n b Hwf) as Hb. rewrite <- (rev_live_avail n b Hwf) in Hb.
    unfold P1.Length in *. repeat split; lia.
  - destruct (p2_run_balance n cs b0 _ b t Hwf0 Hrun) as (Hwf & Hbal & Hp & Hr).
    unfold balance in Hbal. cbn [pushes removals evictions] in Hbal, Hp, Hr.
    pose proof (rev_live_bound n b Hwf) as Hb. rewrite <- (rev_live_avail n b Hwf) in Hb.
    unfold P2.Length in *. repeat split; lia.
Qed.

End RevLength.


(** ** Eviction, across the revisions *)

Section Eviction.
Context {A W : Type}.

(** X20: [pushed] NBPush calls on a fresh buffer of capacity [n > 0], with
    [pushed >= n], evict exactly [pushed - (n - 1)] items, and these are the
    first items pushed, in the order they were pushed: what stays in the
    buffer is the rest.  In src/circularbuffer.go the callback, when one is
    set, is handed exactly these items in this order; in part_001 and
    part_002 the first [n - 1] calls return nil and each later call returns
    the oldest item not yet evicted, and the run counts [pushed - (n - 1)]
    evictions. *)
Theorem evictions_oldest_first n (vs : list (option A)) :
  0 < n -> n <= Z.of_nat (length vs) ->
  let k := (length vs - Z.to_nat (n - 1))%nat in
  length (take k vs) = k /\
  (forall (b0 : CB.CircularBuffer A W) cb w,
     CB.NewCircularBuffer n = Done b0 ->
     exists b1,
       CB.NBPush_all vs (CB.set_Evict cb b0) w = Done (b1, CB.deliver cb (take k vs) w) /\
       CB.contents b1 = drop k vs) /\
  (forall b0 : Rev.CircularBuffer A,
     Rev.P2.NewCircularBuffer n = Done b0 ->
     exists b1,
       Rev.P2.NBPush_all vs b0 = Done (replicate (Z.to_nat (n - 1)) Nil ++ take k vs, b1) /\
       Rev.P1.NBPush_all vs b0 = Done (replicate (Z.to_nat (n - 1)) Nil ++ take k vs, b1) /\
       Rev.P2.run (Rev.CallNBPush <$> vs) b0 (Rev.mkTally 0 0 0) =
         Done (b1, Rev.mkTally (Z.of_nat (length vs)) 0 (Z.of_nat k)) /\
       Rev.contents b1 = drop k vs).
Proof.
  intros Hn Hlen k. subst k. split; [| split].
  - rewrite length_take. lia.
  - intros b0 cb w Hnew.
    pose proof (wf_set_Evict n b0 cb (wf_New n b0 Hn Hnew)) as Hwf0.
    destruct (NBPush_all_spec n vs (CB.set_Evict cb b0) w Hwf0) as (b1 & Hpush & _ & Hc & _).
    rewrite contents_set_Evict, (contents_New n b0 Hn Hnew) in Hpush, Hc.
    cbn [length app Nat.add CB.set_Evict CB.Evict] in Hpush, Hc.
    exists b1. split; assumption.
  - intros b0 Hnew.
    pose proof (p2_wf_New n b0 Hn Hnew) as Hwf0.
    destruct (p2_NBPush_all_spec n vs b0 (Rev.mkTally 0 0 0) Hwf0)
      as (b1 & Hall & Hrun & _ & Hc).
    rewrite (rev_contents_New n b0 Hn Hnew) in Hall, Hrun, Hc.
    cbn [length app Nat.add Rev.pushes Rev.removals Rev.evictions Z.add] in Hall, Hrun, Hc.
    replace (length vs - (length vs - Z.to_nat (n - 1)))%nat with (Z.to_nat (n - 1))
      in Hall by lia.
    exists b1. split; [exact Hall |]. split; [exact Hall |]. split; [exact Hrun | exact Hc].
Qed.

(** C2, as the code has it: [NewCircularBuffer(0)] does not fail.  It
    returns a buffer with no cell and an unbuffered channel, which reports
    empty; the failure comes with the first use: every [NBPush] panics on
    its first store, and [Get] and [Pop] wait for a token that no push can
    send.  The same in src/circularbuffer.go, part_001 and part_002. *)
Theorem zero_capacity_fails_at_first_use :
  (exists b0 : CB.CircularBuffer A W,
     CB.NewCircularBuffer 0 = Done b0 /\
     CB.Empty b0 = true /\
     (forall v w, CB.NBPush v b0 w = Panic "index out of range") /\
     CB.Get b0 = Block /\ CB.Pop b0 = Block) /\
  (exists b0 : Rev.CircularBuffer A,
     Rev.P1.NewCircularBuffer 0 = Done b0 /\
     Rev.P2.NewCircularBuffer 0 = Done b0 /\
     Rev.P1.Length b0 = 0 /\
     (forall v, Rev.P1.NBPush v b0 = Panic "index out of range") /\
     (forall v, Rev.P2.NBPush v b0 = Panic "index out of range") /\
     Rev.P1.Get b0 = Block /\ Rev.P2.Get b0 = Block /\
     Rev.P1.Pop b0 = Block /\ Rev.P2.Pop b0 = Block).
Proof.
  split.
  - exists (CB.mkCB 0 0 [] 0 (mkChan [] 0) None). repeat split.
  - exists (Rev.mkCB 0 0 [] 0 (mkChan [] 0)). repeat split.
Qed.

End Eviction.

(** C1, at a full buffer of capacity 3 holding 7 and 8, on [NBPush(9)]:
    src/circularbuffer.go without a callback evicts 7 and hands it to nobody
    (the call has no result, and 7 is in no cell afterwards); with the
    recording callback set, the callback receives 7; part_001 and part_002,
    which have no callback, return 7. *)
Theorem NBPush_without_callback_drops_evicted :
  CB.NBPush (Some 9) Ex.full3 [] =
    Done (CB.mkCB 1 0 [Nil; Some 8; Some 9] 3 (mkChan [true; true] 3) None, []) /\
  CB.NBPush (Some 9) (CB.set_Evict (Some Ex.record) Ex.full3) [] =
    Done (CB.mkCB 1 0 [Nil; Some 8; Some 9] 3 (mkChan [true; true] 3) (Some Ex.record),
          [Some 7]) /\
  Rev.P1.NBPush (Some 9) ExRev.full3 =
    Done (Some 7, Rev.mkCB 1 0 [Nil; Some 8; Some 9] 3 (mkChan [true; true] 3)) /\
  Rev.P2.NBPush (Some 9) ExRev.full3 =
    Done (Some 7, Rev.mkCB 1 0 [Nil; Some 8; Some 9] 3 (mkChan [true; true] 3)).
Proof. repeat split. Qed.

(** C4, at a fresh buffer of capacity 3 on [NBPush] of 1, 2, 3 and 4:
    two items are evicted, 1 and then 2, as the claim counts and orders
    them.  In src/circularbuffer.go without a callback they are delivered
    to nobody: the calls have no result, the client's state is untouched,
    and the cells hold 4, nil and 3.  With the recording callback set the
    callback receives 1, then 2; part_001 and part_002 return nil, nil, 1
    and 2. *)
Theorem evictions_without_callback_reach_nobody :
  CB.NBPush_all (Ex.ints [1; 2; 3; 4]) Ex.fresh3 [] =
    Done (CB.mkCB 2 1 [Some 4; Nil; Some 3] 3 (mkChan [true; true] 3) None, []) /\
  CB.contents (CB.mkCB 2 1 [Some 4; Nil; Some 3] 3 (mkChan [true; true] 3) None
                 : CB.CircularBuffer Z (list (option Z))) = Ex.ints [3; 4] /\
  CB.NBPush_all (Ex.ints [1; 2; 3; 4]) (CB.set_Evict (Some Ex.record) Ex.fresh3) [] =
    Done (CB.mkCB 2 1 [Some 4; Nil; Some 3] 3 (mkChan [true; true] 3) (Some Ex.record),
          Ex.ints [1; 2]) /\
  Rev.P2.NBPush_all (Ex.ints [1; 2; 3; 4]) ExRev.fresh3 =
    Done ([Nil; Nil; Some 1; Some 2],
          Rev.mkCB 2 1 [Some 4; Nil; Some 3] 3 (mkChan [true; true] 3)) /\
  Rev.P1.NBPush_all (Ex.ints [1; 2; 3; 4]) ExRev.fresh3 =
    Done ([Nil; Nil; Some 1; Some 2],
          Rev.mkCB 2 1 [Some 4; Nil; Some 3] 3 (mkChan [true; true] 3)).
Proof. repeat split. Qed.

(** C2, refuted as stated: with capacity 0 the constructor returns a
    buffer, in each revision. *)
Lemma NewCircularBuffer_zero_returns :
  CB.NewCircularBuffer 0 = Done Ex.fresh0 /\
  Rev.P1.NewCircularBuffer 0 = Done ExRev.fresh0 /\
  Rev.P2.NewCircularBuffer 0 = Done ExRev.fresh0 /\
  is_panic (CB.NewCircularBuffer (A:=Z) (W:=list (option Z)) 0) = false.
Proof. repeat split. Qed.


(** ** The theorems at concrete buffers *)

Lemma reachable_one3 : CB.reachable 3 Ex.one3.
Proof.
  apply (CB.reach_NBPush 3 Ex.fresh3 (Some 7) [] Ex.one3 []).
  - apply CB.reach_New. reflexivity.
  - reflexivity.
Defined.


Lemma fatal_branches_unreachable_witness :
  0 < 3 /\ CB.reachable 3 Ex.one3 /\
  (exists b' w', CB.NBPush (Some 8) Ex.one3 [] = Done (b', w')) /\
  (exists v b', CB.Get_locked Ex.taken3 = Done (v, b')).
Proof.
  split; [lia |]. split; [exact reachable_one3 |].
  destruct (fatal_branches_unreachable (A:=Z) (W:=list (option Z)) 3) as [_ Hseq]; [lia |].
  destruct (Hseq Ex.one3 reachable_one3) as [Hpush Hbody].
  split; [apply Hpush |].
  apply (Hbody Ex.taken3). reflexivity.
Defined.

Lemma Get_keeps_storage_witness :
  CB.Get Ex.one3 = Done (Some 7, Ex.got3) /\
  CB.buffer Ex.got3 = CB.buffer Ex.one3 /\
  CB.buffer Ex.got3 !! Z.to_nat (CB.start Ex.one3) = Some (Some 7).
Proof.
  split; [reflexivity |].
  destruct (Get_keeps_storage Ex.one3 (Some 7) Ex.got3) as (Hb & Hv & _); [reflexivity |].
  split; assumption.
Defined.

Lemma Get_is_fifo_witness :
  CB.NewCircularBuffer 3 = Done Ex.fresh3 /\
  Z.of_nat (length [Some 7; Some 8]) <= 3 - 1 /\
  (exists b1 b2,
     CB.NBPush_all [Some 7; Some 8] (CB.set_Evict None Ex.fresh3) [] = Done (b1, []) /\
     CB.Get_n (length [Some 7; Some 8]) b1 = Done ([Some 7; Some 8], b2) /\
     CB.Empty b2 = true).
Proof.
  split; [reflexivity |]. split; [cbn; lia |].
  apply (Get_is_fifo 3 Ex.fresh3 None [Some 7; Some 8] []); [reflexivity | cbn; lia].
Defined.

Lemma Pop_is_lifo_witness :
  CB.NewCircularBuffer 3 = Done Ex.fresh3 /\
  Z.of_nat (length [Some 7; Some 8]) <= 3 - 1 /\
  (exists b1 b2,
     CB.NBPush_all [Some 7; Some 8] (CB.set_Evict None Ex.fresh3) [] = Done (b1, []) /\
     CB.Pop_n (length [Some 7; Some 8]) b1 = Done (rev [Some 7; Some 8], b2) /\
     CB.Empty b2 = true).
Proof.
  split; [reflexivity |]. split; [cbn; lia |].
  apply (Pop_is_lifo 3 Ex.fresh3 None [Some 7; Some 8] []); [reflexivity | cbn; lia].
Defined.

Lemma evictions_oldest_first_witness :
  0 < 3 /\ 3 <= Z.of_nat (length [Some 1; Some 2; Some 3; Some 4]) /\
  (exists b1,
     CB.NBPush_all [Some 1; Some 2; Some 3; Some 4]
       (CB.set_Evict (Some Ex.record) Ex.fresh3) [] =
     Done (b1, CB.deliver (Some Ex.record) [Some 1; Some 2] [])) /\
  (exists b1,
     Rev.P2.NBPush_all [Some 1; Some 2; Some 3; Some 4] ExRev.fresh3 =
     Done ([Nil; Nil; Some 1; Some 2], b1)).
Proof.
  split; [lia |]. split; [cbn; lia |].
  destruct (evictions_oldest_first (A:=Z) (W:=list (option Z)) 3
              [Some 1; Some 2; Some 3; Some 4]) as (_ & Hcb & Hrev);
    [lia | cbn; lia |].
  split.
  - destruct (Hcb Ex.fresh3 (Some Ex.record) []) as (b1 & H1 & _); [reflexivity |].
    exists b1. exact H1.
  - destruct (Hrev ExRev.fresh3) as (b1 & H2 & _); [reflexivity |].
    exists b1. exact H2.
Defined.

Lemma Length_counts_what_is_left_witness :
  0 < 3 /\ Rev.P2.NewCircularBuffer 3 = Done ExRev.fresh3 /\
  Rev.P2.Length (Rev.mkCB 1 1 [Some 1; Nil; Nil] 3 (mkChan [] 3)) = 1 - (1 + 0) /\
  Rev.P1.Length (Rev.mkCB 1 1 [Some 1; Nil; Nil] 3 (mkChan [] 3)) = 1 - (1 + 0).
Proof.
  split; [lia |]. split; [reflexivity |].
  destruct (Length_counts_what_is_left 3 [Rev.CallNBPush (Some 1); Rev.CallGet] ExRev.fresh3)
    as [H1 H2]; [lia | reflexivity |].
  split.
  - apply (H2 (Rev.mkCB 1 1 [Some 1; Nil; Nil] 3 (mkChan [] 3)) (Rev.mkTally 1 1 0)).
    reflexivity.
  - apply (H1 (Rev.mkCB 1 1 [Some 1; Nil; Nil] 3 (mkChan [] 3)) (Rev.mkTally 1 1 0)).
    reflexivity.
Defined.


(** ** The tests of the repository (src/unnamed/part_000), run on the model *)

(** TestSyncGet *)
Example test_SyncGet :
  (let* r := CB.NBPush_all (Ex.ints [0; 1; 2; 3]) Ex.fresh10 [] in
   let* g := CB.Get_n 4 (fst r) in
   let* e := CB.verifyIsEmpty (snd g) in
   Done (fst g, e))
  = Done (Ex.ints [0; 1; 2; 3], true).
Proof. reflexivity. Qed.

(** TestSyncOverflow *)
Example test_SyncOverflow :
  (let* r := CB.NBPush_all (Ex.ints [0; 1; 2; 3; 4; 5; 6; 7; 8; 9])
               (CB.set_Evict (Some Ex.record) Ex.fresh10) [] in
   let* g := CB.Get_n 9 (fst r) in
   let* e := CB.verifyIsEmpty (snd g) in
   Done (fst g, e, snd r))
  = Done (Ex.ints [1; 2; 3; 4; 5; 6; 7; 8; 9], true, Ex.ints [0]).
Proof. reflexivity. Qed.

(** TestSyncPop *)
Example test_SyncPop :
  (let* r := CB.NBPush_all (Ex.ints [3; 2; 1; 0]) Ex.fresh10 [] in
   let* g := CB.Pop_n 4 (fst r) in
   let* e := CB.verifyIsEmpty (snd g) in
   Done (fst g, e))
  = Done (Ex.ints [0; 1; 2; 3], true).
Proof. reflexivity. Qed.

(** A [Get] with nothing to get waits. *)
Example Get_waits_on_empty : CB.Get Ex.fresh10 = Block.
Proof. reflexivity. Qed.


(** * Further properties of the code *)

(** ** src/circularbuffer.go: one call on any reachable buffer *)

Section CBCalls.
Context {A W : Type}.
Import CB.
Implicit Types (b : CircularBuffer A W) (v : option A) (w : W).

Lemma full_iff_avail n b :
  wf n b -> ((pos b + 1) mod n = start b <-> chan_len (avail b) = n - 1).
Proof.
  intros Hwf. rewrite (live_avail n b Hwf). apply (full_iff n b Hwf).
Qed.

(** X1: on a reachable buffer holding fewer than [n - 1] items, [NBPush v]
    puts [v] behind the items already queued, adds one token to [avail],
    and does not call the callback. *)
Theorem NBPush_appends_when_room n b v w :
  0 < n -> reachable n b -> chan_len (avail b) < n - 1 ->
  exists b',
    NBPush v b w = Done (b', w) /\
    contents b' = contents b ++ [v] /\
    chan_len (avail b') = chan_len (avail b) + 1 /\
    Evict b' = Evict b.
Proof.
  intros Hn Hr Hroom. pose proof (reachable_wf n b Hn Hr) as Hwf.
  destruct (NBPush_progress n b v w Hwf) as (b' & w' & Hpush).
  assert ((pos b + 1) mod n <> start b) as Hne.
  { rewrite (full_iff_avail n b Hwf). lia. }
  destruct (NBPush_room n b v w b' w' Hwf Hne Hpush) as (Hc & -> & He).
  exists b'. split; [assumption |]. split; [assumption |]. split; [| assumption].
  pose proof (wf_NBPush n b v w b' w Hwf Hpush) as Hwf'.
  rewrite (live_avail n b Hwf), (live_avail n b' Hwf').
  pose proof (contents_length b) as Hl. pose proof (contents_length b') as Hl'.
  pose proof (live_bound n b Hwf). pose proof (live_bound n b' Hwf').
  rewrite Hc, length_app in Hl'. cbn [length] in Hl'. lia.
Qed.

(** X2: on a reachable buffer holding [n - 1] items, [NBPush v] removes the
    oldest of the queued items and [v] (it is [v] itself when [n = 1]),
    hands it to the callback once when one is set, keeps the others in
    order with [v] last, and leaves [avail] as it was. *)
Theorem NBPush_evicts_oldest_when_full n b v w :
  0 < n -> reachable n b -> chan_len (avail b) = n - 1 ->
  exists e rest b',
    contents b ++ [v] = e :: rest /\
    NBPush v b w = Done (b', match Evict b with Some f => f e w | None => w end) /\
    contents b' = rest /\
    avail b' = avail b /\
    Evict b' = Evict b.
Proof.
  intros Hn Hr Hfull. pose proof (reachable_wf n b Hn Hr) as Hwf.
  destruct (NBPush_progress n b v w Hwf) as (b' & w' & Hpush).
  apply (full_iff_avail n b Hwf) in Hfull.
  destruct (NBPush_full n b v w b' w' Hwf Hfull Hpush) as (e & Hc & -> & He).
  exists e, (contents b'), b'. repeat split; try assumption.
  rewrite (NBPush_eq n b v w Hwf) in Hpush. cbv zeta in Hpush.
  destruct (Z.eqb_spec ((pos b + 1) mod n) (start b)); [| contradiction].
  inversion Hpush. reflexivity.
Qed.

(** X3: on a reachable buffer, [Get] waits exactly when [Empty()] holds;
    otherwise it returns the oldest queued item, leaves the others queued
    in order, and takes one token from [avail]. *)
Theorem Get_takes_oldest n b :
  0 < n -> reachable n b ->
  (Empty b = true -> contents b = [] /\ Get b = Block) /\
  (Empty b = false ->
     exists v rest b',
       contents b = v :: rest /\ Get b = Done (v, b') /\ contents b' = rest /\
       chan_len (avail b') = chan_len (avail b) - 1).
Proof.
  intros Hn Hr. pose proof (reachable_wf n b Hn Hr) as Hwf. split.
  - intros He. pose proof He as Hc. apply (Empty_iff n b Hwf) in Hc.
    split; [assumption |]. rewrite (Get_eq n b Hwf).
    apply (contents_nil_iff n b Hwf) in Hc. rewrite Hc, Z.eqb_refl. reflexivity.
  - intros He.
    assert (contents b <> []) as Hne.
    { intros Hc. apply (Empty_iff n b Hwf) in Hc. congruence. }
    destruct (Get_progress n b Hwf Hne) as (v & b' & Hget).
    destruct (Get_front n b v b' Hwf Hget) as [Hc _].
    pose proof (wf_Get n b v b' Hwf Hget) as Hwf'.
    exists v, (contents b'), b'. repeat split; try assumption.
    rewrite (live_avail n b Hwf), (live_avail n b' Hwf').
    pose proof (contents_length b) as Hl. pose proof (contents_length b') as Hl'.
    pose proof (live_bound n b Hwf). pose proof (live_bound n b' Hwf').
    rewrite Hc in Hl. cbn [length] in Hl. lia.
Qed.

(** X4: on a reachable buffer, [Pop] waits exactly when [Empty()] holds;
    otherwise it returns the newest queued item, leaves the others queued
    in order, and takes one token from [avail]. *)
Theorem Pop_takes_newest n b :
  0 < n -> reachable n b ->
  (Empty b = true -> contents b = [] /\ Pop b = Block) /\
  (Empty b = false ->
     exists v rest b',
       contents b = rest ++ [v] /\ Pop b = Done (v, b') /\ contents b' = rest /\
       chan_len (avail b') = chan_len (avail b) - 1).
Proof.
  intros Hn Hr. pose proof (reachable_wf n b Hn Hr) as Hwf. split.
  - intros He. pose proof He as Hc. apply (Empty_iff n b Hwf) in Hc.
    split; [assumption |]. rewrite (Pop_eq n b Hwf).
    apply (contents_nil_iff n b Hwf) in Hc. rewrite Hc, Z.eqb_refl. reflexivity.
  - intros He.
    assert (contents b <> []) as Hne.
    { intros Hc. apply (Empty_iff n b Hwf) in Hc. congruence. }
    destruct (Pop_progress n b Hwf Hne) as (v & b' & Hpop).
    destruct (Pop_back n b v b' Hwf Hpop) as [Hc _].
    pose proof (wf_Pop n b v b' Hwf Hpop) as Hwf'.
    exists v, (contents b'), b'. repeat split; try assumption.
    rewrite (live_avail n b Hwf), (live_avail n b' Hwf').
    pose proof (contents_length b) as Hl. pose proof (contents_length b') as Hl'.
    pose proof (live_bound n b Hwf). pose proof (live_bound n b' Hwf').
    rewrite Hc, length_app in Hl. cbn [length] in Hl. lia.
Qed.

(** X5: a buffer of capacity 1 never holds anything: in every reachable
    state it is empty, [Get] and [Pop] wait, and [NBPush v] evicts [v]
    itself at once (the callback, when set, is handed [v]). *)
Theorem capacity_one_holds_nothing b :
  reachable 1 b ->
  contents b = [] /\ Empty b = true /\ Get b = Block /\ Pop b = Block /\
  (forall v w, exists b',
     NBPush v b w = Done (b', match Evict b with Some f => f v w | None => w end) /\
     contents b' = []).
Proof.
  intros Hr. assert (0 < 1) as Hn by lia.
  pose proof (reachable_wf 1 b Hn Hr) as Hwf.
  assert (contents b = []) as Hc.
  { pose proof (contents_length b) as Hl. pose proof (live_bound 1 b Hwf).
    destruct (contents b); [reflexivity | cbn [length] in Hl; lia]. }
  pose proof Hc as Hsp. apply (contents_nil_iff 1 b Hwf) in Hsp.
  split; [assumption |]. split; [now apply (Empty_iff 1 b Hwf) |].
  split; [rewrite (Get_eq 1 b Hwf), Hsp, Z.eqb_refl; reflexivity |].
  split; [rewrite (Pop_eq 1 b Hwf), Hsp, Z.eqb_refl; reflexivity |].
  intros v w. destruct (NBPush_progress 1 b v w Hwf) as (b' & w' & Hpush).
  assert ((pos b + 1) mod 1 = start b) as Hfull.
  { apply (full_iff 1 b Hwf). pose proof (live_bound 1 b Hwf). lia. }
  destruct (NBPush_full 1 b v w b' w' Hwf Hfull Hpush) as (e & Happ & -> & _).
  rewrite Hc in Happ. cbn [app] in Happ. injection Happ as <- Hrest.
  exists b'. split; [assumption | congruence].
Qed.

(** X6: with capacity at least 2, [Pop] right after [NBPush v] never waits
    and gives [v] back; the queue is then what it was before the push,
    less its oldest item when the push had to evict. *)
Theorem Pop_undoes_NBPush n b v w :
  2 <= n -> reachable n b ->
  exists b1 w1 b2,
    NBPush v b w = Done (b1, w1) /\
    Pop b1 = Done (v, b2) /\
    contents b2 = if chan_len (avail b) =? n - 1 then tail (contents b) else contents b.
Proof.
  intros Hn2 Hr. assert (0 < n) as Hn by lia.
  pose proof (reachable_wf n b Hn Hr) as Hwf.
  destruct (NBPush_progress n b v w Hwf) as (b1 & w1 & Hpush).
  pose proof (wf_NBPush n b v w b1 w1 Hwf Hpush) as Hwf1.
  pose proof (contents_length b) as Hl. pose proof (live_bound n b Hwf) as Hb.
  assert (exists l, contents b1 = l ++ [v] /\
            l = if chan_len (avail b) =? n - 1 then tail (contents b) else contents b)
    as (l & Hc1 & Hl1).
  { destruct (Z.eqb_spec (chan_len (avail b)) (n - 1)) as [Hfull | Hroom].
    - pose proof Hfull as Hf. apply (full_iff_avail n b Hwf) in Hf.
      destruct (NBPush_full n b v w b1 w1 Hwf Hf Hpush) as (e & Happ & _).
      rewrite (live_avail n b Hwf) in Hfull.
      destruct (contents b) as [| x q] eqn:Hq; [cbn [length] in Hl; lia |].
      cbn [app] in Happ. injection Happ as _ Hrest.
      exists q. split; [congruence | reflexivity].
    - assert ((pos b + 1) mod n <> start b) as Hne
        by (rewrite (full_iff_avail n b Hwf); assumption).
      destruct (NBPush_room n b v w b1 w1 Hwf Hne Hpush) as (Hc & _).
      exists (contents b). split; [assumption | reflexivity]. }
  destruct (Pop_progress n b1 Hwf1) as (v' & b2 & Hpop).
  { rewrite Hc1. destruct l; discriminate. }
  destruct (Pop_back n b1 v' b2 Hwf1 Hpop) as [Hback _].
  rewrite Hc1 in Hback. apply app_inj_tail in Hback as [Hl2 <-].
  exists b1, w1, b2. split; [assumption |]. split; [assumption |]. congruence.
Qed.

End CBCalls.

(** ** src/unnamed/part_001 and part_002: one call on any reachable buffer *)

Section RevCalls.
Context {A : Type}.
Import Rev.
Implicit Types (b : CircularBuffer A) (v : option A).

Lemma p2_Get_front n b v b' :
  wf n b -> P2.Get b = Done (v, b') -> contents b = v :: contents b'.
Proof.
  intros Hwf Hget.
  destruct (p2_wf_Get n b v b' Hwf Hget) as [Hwf' _].
  pose proof (rev_live_eq n b Hwf) as Hl. pose proof (rev_live_eq n b' Hwf') as Hl'.
  rewrite (p2_Get_eq n b Hwf) in Hget.
  destruct Hwf as [Hsz Hn Hlen Hs Hp Hcap Hav].
  destruct (Z.eqb_spec (start b) (pos b)) as [Heq | Hne]; [discriminate |].
  inversion Hget; subst v b'; clear Hget. cbn in Hl'.
  apply list_eq. intros i. rewrite rev_contents_lookup, lookup_cons.
  destruct i as [| j].
  - unfold slot. rewrite Hsz, Hl. clear Hwf' Hl Hl'.
    case_decide; mod_split; try (exfalso; lia); same_cell.
  - rewrite rev_contents_lookup.
    unfold slot. cbn [start pos buffer size]. rewrite Hsz, Hl, Hl'. clear Hwf' Hl Hl'.
    repeat case_decide; mod_split; try (exfalso; lia).
    all: try reflexivity; same_cell.
Qed.

Lemma p1_Get_front n b v b' :
  wf n b -> P1.Get b = Done (v, b') -> contents b = v :: contents b'.
Proof.
  intros Hwf Hget.
  destruct (p1_wf_Get n b v b' Hwf Hget) as [Hwf' _].
  pose proof (rev_live_eq n b Hwf) as Hl. pose proof (rev_live_eq n b' Hwf') as Hl'.
  rewrite (p1_Get_eq n b Hwf) in Hget.
  destruct Hwf as [Hsz Hn Hlen Hs Hp Hcap Hav].
  destruct (Z.eqb_spec (start b) (pos b)) as [Heq | Hne]; [discriminate |].
  inversion Hget; subst v b'; clear Hget. cbn in Hl'.
  apply list_eq. intros i. rewrite rev_contents_lookup, lookup_cons.
  destruct i as [| j].
  - unfold slot. rewrite Hsz, Hl. clear Hwf' Hl Hl'.
    case_decide; mod_split; try (exfalso; lia); same_cell.
  - rewrite rev_contents_lookup.
    unfold slot. cbn [start pos buffer size]. rewrite Hsz, Hl, Hl'. clear Hwf' Hl Hl'.
    repeat case_decide; mod_split; try (exfalso; lia); cells.
    all: try reflexivity; same_cell.
Qed.

Lemma p2_Pop_back n b v b' :
  wf n b -> P2.Pop b = Done (v, b') -> contents b = contents b' ++ [v].
Proof.
  intros Hwf Hpop.
  destruct (p2_wf_Pop n b v b' Hwf Hpop) as [Hwf' _].
  pose proof (rev_live_eq n b Hwf) as Hl. pose proof (rev_live_eq n b' Hwf') as Hl'.
  rewrite (p2_Pop_eq n b Hwf) in Hpop. cbv zeta in Hpop.
  destruct Hwf as [Hsz Hn Hlen Hs Hp Hcap Hav].
  destruct (Z.eqb_spec (start b) (pos b)) as [Heq | Hne]; [discriminate |].
  inversion Hpop; subst v b'; clear Hpop. cbn in Hl'.
  apply list_eq. intros i.
  rewrite lookup_app, !rev_contents_lookup, rev_contents_length.
  unfold slot. cbn [start pos buffer size]. rewrite Hsz, Hl, Hl'. clear Hwf' Hl Hl'.
  repeat case_decide; mod_split; try (exfalso; lia); cells.
  all: try reflexivity; same_cell.
Qed.

Lemma p2_reachable_wf n b : 0 < n -> P2.reachable n b -> wf n b.
Proof.
  intros Hn Hr. induction Hr.
  - now apply p2_wf_New.
  - eapply p2_wf_NBPush; eassumption.
  - eapply p2_wf_Get; eassumption.
  - eapply p2_wf_Pop; eassumption.
Qed.

Lemma p1_reachable_wf n b : 0 < n -> P1.reachable n b -> wf n b.
Proof.
  intros Hn Hr. induction Hr.
  - now apply p2_wf_New.
  - eapply p2_wf_NBPush; eassumption.
  - eapply p1_wf_Get; eassumption.
  - eapply p2_wf_Pop; eassumption.
Qed.

Lemma rev_full_iff_Length n b :
  wf n b -> (evicting b = true <-> P2.Length b = n - 1).
Proof.
  intros Hwf. rewrite (rev_evicting_eq n b Hwf), Z.eqb_eq.
  unfold P2.Length. rewrite (rev_live_avail n b Hwf). apply (rev_full_iff n b Hwf).
Qed.

(** X7: in part_002 (and part_001, whose [NBPush] is the same), on a
    reachable buffer [NBPush] evicts exactly when [Length()] is [n - 1],
    and afterwards [Length()] is one more, capped at [n - 1]. *)
Theorem NBPush_evicts_iff_Length_is_max n b v r b' :
  0 < n -> P2.reachable n b -> P2.NBPush v b = Done (r, b') ->
  (evicting b = true <-> P2.Length b = n - 1) /\
  P2.Length b' = Z.min (P2.Length b + 1) (n - 1) /\
  P1.NBPush v b = Done (r, b').
Proof.
  intros Hn Hr Hpush. pose proof (p2_reachable_wf n b Hn Hr) as Hwf.
  pose proof (rev_full_iff_Length n b Hwf) as Hiff.
  split; [assumption |]. split; [| exact Hpush].
  destruct (p2_wf_NBPush n b v r b' Hwf Hpush) as [Hwf' Hlen].
  pose proof (rev_live_bound n b Hwf) as Hb. rewrite <- (rev_live_avail n b Hwf) in Hb.
  unfold P2.Length in *. rewrite Hlen.
  destruct (evicting b).
  - assert (chan_len (avail b) = n - 1) by now apply Hiff. lia.
  - assert (chan_len (avail b) <> n - 1) by (intros H; apply Hiff in H; discriminate). lia.
Qed.

(** X8: in part_002 and part_001, when no queued item is nil and a non-nil
    value is pushed, [NBPush] returns non-nil exactly when it evicted, what
    it returns is then the oldest queued item, and the queue still holds no
    nil. *)
Theorem NBPush_result_tells_eviction n b (a : A) r b' :
  0 < n -> P2.reachable n b -> Forall (fun x => x <> Nil) (contents b) ->
  P2.NBPush (Some a) b = Done (r, b') ->
  (r <> Nil <-> P2.Length b = n - 1) /\
  (r <> Nil -> contents b ++ [Some a] = r :: contents b') /\
  Forall (fun x => x <> Nil) (contents b').
Proof.
  intros Hn Hr Hall Hpush. pose proof (p2_reachable_wf n b Hn Hr) as Hwf.
  assert (Forall (fun x : option A => x <> Nil) (contents b ++ [Some a])) as Hall'.
  { apply Forall_app. split; [assumption |]. repeat constructor. discriminate. }
  rewrite <- (rev_full_iff_Length n b Hwf), (rev_evicting_eq n b Hwf), Z.eqb_eq.
  destruct (Z.eq_dec ((pos b + 1) mod n) (start b)) as [Hfull | Hroom].
  - pose proof (p2_NBPush_full n b (Some a) r b' Hwf Hfull Hpush) as Happ.
    rewrite Happ in Hall'. apply Forall_cons in Hall' as [Hr0 Hrest].
    split; [tauto |]. split; [intros _; assumption | assumption].
  - destruct (p2_NBPush_room n b (Some a) r b' Hwf Hroom Hpush) as [Hc ->].
    split; [tauto |]. split; [congruence |]. rewrite Hc. assumption.
Qed.

(** X9: part_001's [Get] on a reachable buffer returns the oldest queued
    item and keeps the others queued in order.  Its extra store writes nil
    at [pos], which is never a queued cell: the cell the item was read
    from still holds it, and every cell but the one at [pos] is as it
    was. *)
Theorem p1_Get_clears_the_wrong_cell n b v b' :
  0 < n -> P1.reachable n b -> P1.Get b = Done (v, b') ->
  contents b = v :: contents b' /\
  buffer b' !! Z.to_nat (start b) = Some v /\
  buffer b' !! Z.to_nat (pos b) = Some Nil /\
  (forall i, i <> Z.to_nat (pos b) -> buffer b' !! i = buffer b !! i) /\
  pos b' = pos b.
Proof.
  intros Hn Hr Hget. pose proof (p1_reachable_wf n b Hn Hr) as Hwf.
  split; [now apply (p1_Get_front n b v b' Hwf) |].
  rewrite (p1_Get_eq n b Hwf) in Hget.
  destruct Hwf as [Hsz Hm Hlen Hs Hp Hcap Hav].
  destruct (Z.eqb_spec (start b) (pos b)) as [Heq | Hne]; [discriminate |].
  inversion Hget; subst v b'; clear Hget. cbn [buffer pos].
  split; [| split; [| split; [| reflexivity]]].
  - rewrite list_lookup_insert_ne by lia.
    destruct (lookup_lt_is_Some_2 (buffer b) (Z.to_nat (start b))) as [x Hx]; [lia |].
    now rewrite Hx.
  - apply list_lookup_insert_eq. lia.
  - intros i Hi. apply list_lookup_insert_ne. congruence.
Qed.

End RevCalls.


(** ** The revisions compared *)

Section Revisions.
Context {A W : Type}.
Import Rev Bridge.
Implicit Types (b : CircularBuffer A) (v : option A).

Lemma same_queue_NBPush n b1 b2 v r1 b1' r2 b2' :
  same_queue n b1 b2 ->
  P2.NBPush v b1 = Done (r1, b1') -> P2.NBPush v b2 = Done (r2, b2') ->
  r1 = r2 /\ same_queue n b1' b2'.
Proof.
  intros (Hwf1 & Hwf2 & Hs & Hp & Ha & Hc) H1 H2.
  destruct (p2_wf_NBPush n b1 v r1 b1' Hwf1 H1) as [Hwf1' _].
  destruct (p2_wf_NBPush n b2 v r2 b2' Hwf2 H2) as [Hwf2' _].
  pose proof H1 as E1. pose proof H2 as E2.
  rewrite (p2_NBPush_eq n b1 v Hwf1) in E1. rewrite (p2_NBPush_eq n b2 v Hwf2) in E2.
  cbv zeta in E1, E2. rewrite <- Hs, <- Hp, <- Ha in E2.
  destruct (Z.eqb_spec ((pos b1 + 1) mod n) (start b1)) as [Hfull | Hroom].
  - pose proof (p2_NBPush_full n b1 v r1 b1' Hwf1 Hfull H1) as F1.
    assert ((pos b2 + 1) mod n = start b2) as Hfull2 by congruence.
    pose proof (p2_NBPush_full n b2 v r2 b2' Hwf2 Hfull2 H2) as F2.
    rewrite Hc, F2 in F1. injection F1 as Hr Hrest.
    inversion E1; inversion E2; subst b1' b2'.
    split; [congruence |].
    refine (conj Hwf1' (conj Hwf2' (conj _ (conj _ (conj _ _))))); cbn; congruence.
  - destruct (p2_NBPush_room n b1 v r1 b1' Hwf1 Hroom H1) as [F1 ->].
    assert ((pos b2 + 1) mod n <> start b2) as Hroom2 by congruence.
    destruct (p2_NBPush_room n b2 v r2 b2' Hwf2 Hroom2 H2) as [F2 ->].
    inversion E1; inversion E2; subst b1' b2'.
    split; [reflexivity |].
    refine (conj Hwf1' (conj Hwf2' (conj _ (conj _ (conj _ _))))); cbn; congruence.
Qed.

Lemma same_queue_Get n b1 b2 :
  same_queue n b1 b2 ->
  match P1.Get b1, P2.Get b2 with
  | Done (v1, b1'), Done (v2, b2') => v1 = v2 /\ same_queue n b1' b2'
  | Block, Block => True
  | _, _ => False
  end.
Proof.
  intros (Hwf1 & Hwf2 & Hs & Hp & Ha & Hc).
  destruct (P1.Get b1) as [[v1 b1'] | |] eqn:H1;
    destruct (P2.Get b2) as [[v2 b2'] | |] eqn:H2.
  all: pose proof H1 as E1; pose proof H2 as E2.
  all: rewrite (p1_Get_eq n b1 Hwf1) in E1; rewrite (p2_Get_eq n b2 Hwf2) in E2.
  all: rewrite <- Hs, <- Hp, <- Ha in E2.
  all: destruct (start b1 =? pos b1); try discriminate; try exact I.
  destruct (p1_wf_Get n b1 v1 b1' Hwf1 H1) as [Hwf1' _].
  destruct (p2_wf_Get n b2 v2 b2' Hwf2 H2) as [Hwf2' _].
  pose proof (p1_Get_front n b1 v1 b1' Hwf1 H1) as F1.
  pose proof (p2_Get_front n b2 v2 b2' Hwf2 H2) as F2.
  rewrite Hc, F2 in F1. injection F1 as Hr Hrest.
  inversion E1; inversion E2; subst b1' b2'.
  split; [congruence |].
    refine (conj Hwf1' (conj Hwf2' (conj _ (conj _ (conj _ _))))); cbn; congruence.
Qed.

Lemma same_queue_Pop n b1 b2 :
  same_queue n b1 b2 ->
  match P2.Pop b1, P2.Pop b2 with
  | Done (v1, b1'), Done (v2, b2') => v1 = v2 /\ same_queue n b1' b2'
  | Block, Block => True
  | _, _ => False
  end.
Proof.
  intros (Hwf1 & Hwf2 & Hs & Hp & Ha & Hc).
  destruct (P2.Pop b1) as [[v1 b1'] | |] eqn:H1;
    destruct (P2.Pop b2) as [[v2 b2'] | |] eqn:H2.
  all: pose proof H1 as E1; pose proof H2 as E2.
  all: rewrite (p2_Pop_eq n b1 Hwf1) in E1; rewrite (p2_Pop_eq n b2 Hwf2) in E2.
  all: cbv zeta in E1, E2; rewrite <- Hs, <- Hp, <- Ha in E2.
  all: destruct (start b1 =? pos b1); try discriminate; try exact I.
  destruct (p2_wf_Pop n b1 v1 b1' Hwf1 H1) as [Hwf1' _].
  destruct (p2_wf_Pop n b2 v2 b2' Hwf2 H2) as [Hwf2' _].
  pose proof (p2_Pop_back n b1 v1 b1' Hwf1 H1) as F1.
  pose proof (p2_Pop_back n b2 v2 b2' Hwf2 H2) as F2.
  rewrite Hc, F2 in F1. apply app_inj_tail in F1 as [Hrest Hr].
  inversion E1; inversion E2; subst b1' b2'.
  split; [congruence |].
    refine (conj Hwf1' (conj Hwf2' (conj _ (conj _ (conj _ _))))); cbn; congruence.
Qed.

Lemma same_queue_do_calls n cs : forall b1 b2,
  same_queue n b1 b2 ->
  returned (P1.do_calls cs b1) = returned (P2.do_calls cs b2).
Proof.
  induction cs as [| c cs IH]; intros b1 b2 Hq; [reflexivity |].
  cbn [P1.do_calls P2.do_calls].
  assert (match P1.do_call c b1, P2.do_call c b2 with
          | Done (v1, b1'), Done (v2, b2') => v1 = v2 /\ same_queue n b1' b2'
          | Block, Block => True
          | _, _ => False
          end) as Hstep.
  { destruct c as [v | |]; cbn [P1.do_call P2.do_call].
    - pose proof Hq as (Hwf1 & Hwf2 & _).
      change (P1.NBPush v b1) with (P2.NBPush v b1).
      destruct (p2_NBPush_progress n b1 v Hwf1) as (r1 & b1' & H1).
      destruct (p2_NBPush_progress n b2 v Hwf2) as (r2 & b2' & H2).
      rewrite H1, H2. apply (same_queue_NBPush n b1 b2 v); assumption.
    - now apply same_queue_Get.
    - change (P1.Pop b1) with (P2.Pop b1). now apply same_queue_Pop. }
  destruct (P1.do_call c b1) as [[v1 b1'] | |];
    destruct (P2.do_call c b2) as [[v2 b2'] | |]; try contradiction; try reflexivity.
  destruct Hstep as [-> Hq']. cbn [bind fst snd].
  specialize (IH b1' b2' Hq'). unfold returned in *.
  destruct (P1.do_calls cs b1') as [[l1 c1] | |];
    destruct (P2.do_calls cs b2') as [[l2 c2] | |]; cbn [bind fst snd] in *;
    congruence.
Qed.

(** X10: part_001 and part_002 cannot be told apart by their results: on
    a fresh buffer of any capacity, every sequence of [NBPush], [Get] and
    [Pop] calls returns the same values in both, and ends the same way
    (all calls return, or the same call waits or panics).  The nil that
    part_001's [Get] stores at [pos] is never read back. *)
Theorem part_001_and_part_002_return_the_same n cs b0 :
  P2.NewCircularBuffer n = Done b0 ->
  P1.NewCircularBuffer n = Done b0 /\
  returned (P1.do_calls cs b0) = returned (P2.do_calls cs b0).
Proof.
  intros Hnew. split; [exact Hnew |].
  destruct (p2_New_Done_inv n b0 Hnew) as [Hn Hb0].
  destruct (Z.eq_dec n 0) as [-> | Hn0].
  - subst b0. destruct cs as [| [v | |] cs]; reflexivity.
  - assert (0 < n) as Hpos by lia.
    pose proof (p2_wf_New n b0 Hpos Hnew) as Hwf.
    apply (same_queue_do_calls n).
    refine (conj Hwf (conj Hwf (conj _ (conj _ (conj _ _))))); reflexivity.
Qed.

(** X11: src/circularbuffer.go is part_002 with the evicted item routed to
    the callback: on any buffer, [NBPush] makes the same changes to the
    cursors, the cells and [avail] and fails the same way, and where
    part_002 returns the evicted item, circularbuffer.go hands it to
    [Evict] (or to nobody when none is set); [Get] and [Pop] are the same
    in both. *)
Theorem circularbuffer_go_routes_result_to_callback (b : CB.CircularBuffer A W) v w :
  CB.NBPush v b w =
    match P2.NBPush v (to_Rev b) with
    | Done (r, b') =>
        Done (of_Rev (CB.Evict b) b',
              if evicting (to_Rev b)
              then match CB.Evict b with Some f => f r w | None => w end
              else w)
    | Panic msg => Panic msg
    | Block => Block
    end /\
  CB.Get b =
    match P2.Get (to_Rev b) with
    | Done (x, b') => Done (x, of_Rev (CB.Evict b) b')
    | Panic msg => Panic msg
    | Block => Block
    end /\
  CB.Pop b =
    match P2.Pop (to_Rev b) with
    | Done (x, b') => Done (x, of_Rev (CB.Evict b) b')
    | Panic msg => Panic msg
    | Block => Block
    end.
Proof.
  split; [| split].
  - unfold CB.NBPush, P2.NBPush, evicting, to_Rev, of_Rev. cbn [start pos buffer size avail].
    destruct (store (CB.buffer b) (CB.pos b) v) as [buf1 | |]; cbn [bind]; try reflexivity.
    destruct (urem (uadd (CB.pos b) 1) (CB.size b)) as [pos1 | |]; cbn [bind];
      try reflexivity.
    destruct (pos1 =? CB.start b).
    + destruct (index buf1 (CB.start b)) as [e | |]; cbn [bind]; try reflexivity.
      destruct (store buf1 (CB.start b) Nil) as [buf2 | |]; cbn [bind]; try reflexivity.
      destruct (urem (uadd (CB.start b) 1) (CB.size b)) as [s1 | |]; cbn [bind];
        try reflexivity.
      destruct (CB.Evict b); reflexivity.
    + destruct (try_send (CB.avail b) true); reflexivity.
  - unfold CB.Get, P2.Get, CB.acquire, P2.acquire, to_Rev, of_Rev. cbn [avail].
    destruct (recv (CB.avail b)) as [[x ch] |]; cbn [bind]; [| reflexivity].
    unfold CB.Get_locked, P2.Get_locked. cbn [start pos buffer size avail CB.start CB.pos
      CB.buffer CB.size CB.avail CB.Evict].
    destruct (CB.start b =? CB.pos b); [reflexivity |].
    destruct (index (CB.buffer b) (CB.start b)) as [e | |]; cbn [bind]; try reflexivity.
    destruct (urem (uadd (CB.start b) 1) (CB.size b)) as [s1 | |]; reflexivity.
  - unfold CB.Pop, P2.Pop, CB.acquire, P2.acquire, to_Rev, of_Rev. cbn [avail].
    destruct (recv (CB.avail b)) as [[x ch] |]; cbn [bind]; [| reflexivity].
    unfold CB.Pop_locked, P2.Pop_locked. cbn [start pos buffer size avail CB.start CB.pos
      CB.buffer CB.size CB.avail CB.Evict].
    destruct (CB.start b =? CB.pos b); [reflexivity |].
    destruct (urem (usub (uadd (CB.size b) (CB.pos b)) 1) (CB.size b)) as [p1 | |];
      cbn [bind]; try reflexivity.
    destruct (index (CB.buffer b) p1) as [e | |]; cbn [bind]; try reflexivity.
    destruct (store (CB.buffer b) p1 Nil) as [buf1 | |]; reflexivity.
Qed.

End Revisions.

(** ** src/circularbuffer.go: a producer and a consumer *)

Section CBDuo.
Context {A W : Type}.
Import CB.
Implicit Types (b : CircularBuffer A W) (v : option A) (w : W) (d : duo (A:=A) (W:=W)).

Lemma held_live_eq n k b : held n k b -> live b = (n + pos b - start b) mod n.
Proof. intros Hh. unfold live. now rewrite (held_size n k b Hh). Qed.

Lemma held_full_iff n k b :
  held n k b -> ((pos b + 1) mod n = start b <-> live b = n - 1).
Proof.
  intros Hh. rewrite (held_live_eq n k b Hh).
  destruct Hh as [Hsz Hn Hlen Hs Hp Hcap Hk Hav].
  split; intros H; mod_split; lia.
Qed.

Lemma acquire_contents b b' : acquire b = Done b' -> contents b' = contents b.
Proof.
  unfold acquire. destruct (recv (avail b)) as [[x ch] |]; [| discriminate].
  intros H; inversion H. reflexivity.
Qed.

Lemma NBPush_room_held n k b v w b' w' :
  held n k b -> (pos b + 1) mod n <> start b ->
  NBPush v b w = Done (b', w') ->
  contents b' = contents b ++ [v] /\ w' = w.
Proof.
  intros Hh Hroom Hpush.
  pose proof (held_NBPush n k b v w b' w' Hh Hpush) as Hh'.
  pose proof (held_live_eq n k b Hh) as Hl. pose proof (held_live_eq n k b' Hh') as Hl'.
  rewrite (NBPush_eq_held n k b v w Hh) in Hpush. cbv zeta in Hpush.
  destruct Hh as [Hsz Hn Hlen Hs Hp Hcap Hk Hav].
  destruct (Z.eqb_spec ((pos b + 1) mod n) (start b)) as [Heq | Hne]; [contradiction |].
  inversion Hpush; subst b' w'; clear Hpush. cbn in Hl'.
  split; [| reflexivity].
  apply list_eq. intros i.
  rewrite lookup_app, !contents_lookup, contents_length.
  unfold slot. cbn [start pos buffer size]. rewrite Hsz, Hl, Hl'.
  repeat case_decide.
  all: clear Hh' Hl Hl' Hav; mod_split; try (exfalso; lia).
  all: cells; reflexivity.
Qed.

Lemma Get_locked_front n k b v b' :
  held n k b -> 0 < k -> Get_locked b = Done (v, b') -> contents b = v :: contents b'.
Proof.
  intros Hh Hk Hget.
  pose proof (held_nonempty n k b Hh Hk) as Hne.
  pose proof (held_Get_locked n k b v b' Hh Hk Hget) as Hh'.
  pose proof (held_live_eq n k b Hh) as Hl. pose proof (held_live_eq n _ b' Hh') as Hl'.
  rewrite (Get_locked_eq n k b Hh Hk) in Hget.
  destruct Hh as [Hsz Hn Hlen Hs Hp Hcap _ Hav].
  inversion Hget; subst v b'; clear Hget. cbn in Hl'.
  apply list_eq. intros i. rewrite contents_lookup, lookup_cons.
  destruct i as [| j].
  - unfold slot. rewrite Hsz, Hl. clear Hh' Hl Hl' Hav.
    case_decide; mod_split; try (exfalso; lia); same_cell.
  - rewrite contents_lookup.
    unfold slot. cbn [start pos buffer size]. rewrite Hsz, Hl, Hl'. clear Hh' Hl Hl' Hav.
    repeat case_decide; mod_split; try (exfalso; lia).
    all: try reflexivity; same_cell.
Qed.

Lemma Pop_locked_back n k b v b' :
  held n k b -> 0 < k -> Pop_locked b = Done (v, b') -> contents b = contents b' ++ [v].
Proof.
  intros Hh Hk Hpop.
  pose proof (held_nonempty n k b Hh Hk) as Hne.
  pose proof (held_Pop_locked n k b v b' Hh Hk Hpop) as Hh'.
  pose proof (held_live_eq n k b Hh) as Hl. pose proof (held_live_eq n _ b' Hh') as Hl'.
  rewrite (Pop_locked_eq n k b Hh Hk) in Hpop. cbv zeta in Hpop.
  destruct Hh as [Hsz Hn Hlen Hs Hp Hcap _ Hav].
  inversion Hpop; subst v b'; clear Hpop. cbn in Hl'.
  apply list_eq. intros i.
  rewrite lookup_app, !contents_lookup, contents_length.
  unfold slot. cbn [start pos buffer size]. rewrite Hsz, Hl, Hl'. clear Hh' Hl Hl' Hav.
  repeat case_decide; mod_split; try (exfalso; lia); cells.
  all: try reflexivity; same_cell.
Qed.

Lemma duo_inv_start n b0 w vs plan :
  NewCircularBuffer n = Done b0 -> 0 < n ->
  duo_inv n vs w (length plan) (duo_start b0 w vs plan).
Proof.
  intros Hnew Hn. constructor; cbn.
  - apply wf_held. now apply wf_New.
  - now rewrite (contents_New n b0 Hn Hnew).
  - reflexivity.
  - reflexivity.
Qed.

Lemma duo_room n vs w0 calls d v todo :
  Z.of_nat (length vs) <= n - 1 -> duo_inv n vs w0 calls d -> duo_todo d = v :: todo ->
  (pos (duo_buf d) + 1) mod n <> start (duo_buf d).
Proof.
  intros Hvs [Hh Hperm _ _] Htodo Hfull.
  apply (held_full_iff n _ _ Hh) in Hfull.
  apply Permutation_length in Hperm. rewrite !length_app, Htodo, contents_length in Hperm.
  cbn [length] in Hperm. lia.
Qed.

Lemma duo_inv_step n vs w0 calls d d' :
  Z.of_nat (length vs) <= n - 1 ->
  duo_inv n vs w0 calls d -> duo_step d d' -> duo_inv n vs w0 calls d'.
Proof.
  intros Hvs Hinv Hstep. pose proof Hinv as [Hh Hperm Hw Hc].
  destruct Hstep as [d v todo b' w' Htodo Hpush | d r plan b' Htok Hplan Hacq
                    | d v b' Htok Hget | d v b' Htok Hpop];
    unfold duo_held in *; cbn [duo_buf duo_world duo_todo duo_plan duo_token duo_got] in *.
  - pose proof (duo_room n vs w0 calls d v todo Hvs Hinv Htodo) as Hroom.
    destruct (NBPush_room_held n _ _ v _ b' w' Hh Hroom Hpush) as [Hcont ->].
    constructor; unfold duo_held; cbn; try assumption.
    + eapply held_NBPush; eassumption.
    + rewrite Hcont, <- app_assoc. cbn [app]. now rewrite <- Htodo.
  - rewrite Htok in *. constructor; unfold duo_held; cbn; try assumption.
    + apply (held_acquire n 0 _ _ Hh Hacq).
    + now rewrite (acquire_contents _ _ Hacq).
    + rewrite Hplan in Hc. cbn [length] in Hc. lia.
  - rewrite Htok in *.
    pose proof (Get_locked_front n 1 _ v b' Hh ltac:(lia) Hget) as Hfront.
    constructor; unfold duo_held; cbn; try assumption.
    + apply (held_Get_locked n 1 _ v b' Hh ltac:(lia) Hget).
    + rewrite Hfront in Hperm. rewrite <- app_assoc. exact Hperm.
    + rewrite length_app. cbn [length]. lia.
  - rewrite Htok in *.
    pose proof (Pop_locked_back n 1 _ v b' Hh ltac:(lia) Hpop) as Hback.
    constructor; unfold duo_held; cbn; try assumption.
    + apply (held_Pop_locked n 1 _ v b' Hh ltac:(lia) Hpop).
    + rewrite Hback in Hperm. rewrite <- Hperm.
      rewrite <- !app_assoc. apply Permutation_app_head.
      rewrite !app_assoc. apply Permutation_app_tail.
      apply Permutation_app_comm.
    + rewrite length_app. cbn [length]. lia.
Qed.

Lemma duo_inv_run n b0 w vs plan d :
  NewCircularBuffer n = Done b0 ->
  Z.of_nat (length vs) <= n - 1 -> 0 < n ->
  duo_run (duo_start b0 w vs plan) d ->
  duo_inv n vs w (length plan) d.
Proof.
  intros Hnew Hvs Hn Hrun. induction Hrun as [| d d' Hrun IH Hstep].
  - now apply duo_inv_start.
  - eapply duo_inv_step; eassumption.
Qed.

(** While the consumer only calls [Get], the values keep their order. *)
Lemma duo_fifo_run n b0 w vs m d :
  NewCircularBuffer n = Done b0 ->
  Z.of_nat (length vs) <= n - 1 -> 0 < n ->
  duo_run (duo_start b0 w vs (replicate m ByGet)) d ->
  duo_got d ++ contents (duo_buf d) ++ duo_todo d = vs /\
  duo_token d <> Some ByPop /\
  Forall (fun r => r = ByGet) (duo_plan d).
Proof.
  intros Hnew Hvs Hn Hrun. induction Hrun as [| d d' Hrun IH Hstep].
  - cbn. rewrite (contents_New n b0 Hn Hnew). split; [reflexivity |].
    split; [discriminate |]. apply Forall_forall. intros r Hr.
    now apply elem_of_replicate in Hr as [-> _].
  - pose proof (duo_inv_run n b0 w vs _ d Hnew Hvs Hn Hrun) as Hinv.
    pose proof Hinv as [Hh _ _ _]. destruct IH as (Heq & Htk & Hall).
    destruct Hstep as [d v todo b' w' Htodo Hpush | d r plan b' Htok Hplan Hacq
                      | d v b' Htok Hget | d v b' Htok Hpop];
      unfold duo_held in *; cbn [duo_buf duo_world duo_todo duo_plan duo_token duo_got] in *.
    + pose proof (duo_room n vs w _ d v todo Hvs Hinv Htodo) as Hroom.
      destruct (NBPush_room_held n _ _ v _ b' w' Hh Hroom Hpush) as [Hcont _].
      split; [| split; assumption].
      rewrite Hcont, <- app_assoc. cbn [app]. now rewrite <- Htodo.
    + rewrite Hplan in Hall. apply Forall_cons in Hall as [-> Hall].
      split; [now rewrite (acquire_contents _ _ Hacq) |]. split; [discriminate | assumption].
    + rewrite Htok in Hh.
      pose proof (Get_locked_front n 1 _ v b' Hh ltac:(lia) Hget) as Hfront.
      split; [| split; [discriminate | assumption]].
      rewrite Hfront in Heq. rewrite <- app_assoc. exact Heq.
    + congruence.
Qed.

(** X12: one goroutine pushes the values [vs], at most [n - 1] of them,
    into a fresh buffer while another makes [Get] and [Pop] calls.
    However their steps interleave, every value is in exactly one place
    (returned to the consumer, queued, or still to be pushed): none is
    lost, none is returned twice, nothing is evicted and the callback is
    not called; and the tokens in [avail] plus the one the consumer may
    hold count the queued values. *)
Theorem concurrent_removal_loses_nothing n b0 w vs plan d :
  NewCircularBuffer n = Done b0 ->
  Z.of_nat (length vs) <= n - 1 ->
  duo_run (duo_start b0 w vs plan) d ->
  Permutation (duo_got d ++ contents (duo_buf d) ++ duo_todo d) vs /\
  duo_world d = w /\
  chan_len (avail (duo_buf d)) + duo_held d = Z.of_nat (length (contents (duo_buf d))).
Proof.
  intros Hnew Hvs Hrun. assert (0 < n) as Hn by lia.
  destruct (duo_inv_run n b0 w vs plan d Hnew Hvs Hn Hrun) as [Hh Hperm Hw _].
  split; [assumption |]. split; [assumption |].
  rewrite contents_length, (held_live_eq n _ _ Hh).
  pose proof (Z.mod_pos_bound (n + pos (duo_buf d) - start (duo_buf d)) n).
  pose proof (held_avail n _ _ Hh). lia.
Qed.

(** X13: with a consumer that only calls [Get] (TestAsyncGet, for any
    values and any capacity that holds them), every interleaving returns
    the values in the order they were pushed: what the consumer has got,
    then what is queued, then what is still to be pushed, is the pushed
    list.  When both goroutines are done after [m] calls, the consumer
    holds the first [m] values and the buffer the others. *)
Theorem concurrent_Get_keeps_order n b0 w vs m d :
  NewCircularBuffer n = Done b0 ->
  Z.of_nat (length vs) <= n - 1 ->
  duo_run (duo_start b0 w vs (replicate m ByGet)) d ->
  duo_got d ++ contents (duo_buf d) ++ duo_todo d = vs /\
  (duo_done d -> duo_got d = take m vs /\ contents (duo_buf d) = drop m vs).
Proof.
  intros Hnew Hvs Hrun. assert (0 < n) as Hn by lia.
  destruct (duo_fifo_run n b0 w vs m d Hnew Hvs Hn Hrun) as (Heq & _ & _).
  split; [assumption |].
  intros (Htodo & Hplan & Htok).
  destruct (duo_inv_run n b0 w vs _ d Hnew Hvs Hn Hrun) as [_ _ _ Hc].
  unfold duo_held in Hc. rewrite Htok, Hplan, length_replicate in Hc. cbn in Hc.
  rewrite Htodo, app_nil_r in Heq.
  assert (length (duo_got d) = m) as Hm by lia.
  rewrite <- Heq, <- Hm. rewrite take_app_length, drop_app_length. split; reflexivity.
Qed.


(** *** Two schedules of a popping consumer *)

Section Schedules.
Variables (n : Z) (b0 : CircularBuffer A W) (w : W) (vs : list (option A)).
Variable plan0 : list removal.
Hypothesis Hnew : NewCircularBuffer n = Done b0.
Hypothesis Hvs : Z.of_nat (length vs) <= n - 1.

Let s0 : duo := duo_start b0 w vs plan0.

Lemma sched_inv d : duo_run s0 d -> duo_inv n vs w (length plan0) d.
Proof. intros Hrun. apply (duo_inv_run n b0 w vs plan0 d Hnew Hvs); [lia | exact Hrun]. Qed.

(** The producer runs alone until it has pushed everything. *)
Lemma sched_push_all todo : forall d,
  duo_run s0 d -> duo_todo d = todo ->
  exists d',
    duo_run s0 d' /\ duo_todo d' = [] /\
    duo_plan d' = duo_plan d /\ duo_token d' = duo_token d /\ duo_got d' = duo_got d /\
    contents (duo_buf d') = contents (duo_buf d) ++ todo.
Proof.
  induction todo as [| v todo IH]; intros d Hrun Htodo.
  - exists d. rewrite app_nil_r. repeat split; auto.
  - pose proof (sched_inv d Hrun) as Hinv. pose proof Hinv as [Hh _ _ _].
    pose proof (duo_room n vs w _ d v todo Hvs Hinv Htodo) as Hroom.
    pose proof (NBPush_eq_held n _ _ v (duo_world d) Hh) as Heq. cbv zeta in Heq.
    destruct (Z.eqb_spec ((pos (duo_buf d) + 1) mod n) (start (duo_buf d)));
      [contradiction |].
    destruct (NBPush_room_held n _ _ v _ _ _ Hh Hroom Heq) as [Hc _].
    pose proof (duo_run_step s0 d _ Hrun (duo_push d v todo _ _ Htodo Heq)) as Hrun1.
    destruct (IH _ Hrun1 eq_refl) as (d' & Hr' & Ht' & Hp' & Hk' & Hg' & Hc').
    cbn [duo_buf duo_plan duo_token duo_got] in *.
    exists d'. repeat split; try assumption.
    rewrite Hc', Hc, <- app_assoc. reflexivity.
Qed.

(** One whole [Pop] of the consumer, on a buffer whose newest value is [x]. *)
Lemma sched_one_Pop d l x plan :
  duo_run s0 d -> duo_token d = None -> duo_plan d = ByPop :: plan ->
  contents (duo_buf d) = l ++ [x] ->
  exists d',
    duo_run s0 d' /\ duo_token d' = None /\ duo_plan d' = plan /\
    duo_todo d' = duo_todo d /\ duo_got d' = duo_got d ++ [x] /\
    contents (duo_buf d') = l.
Proof.
  intros Hrun Htok Hplan Hc.
  pose proof (sched_inv d Hrun) as [Hh _ _ _]. unfold duo_held in Hh. rewrite Htok in Hh.
  assert (exists b1, acquire (duo_buf d) = Done b1) as [b1 Hacq].
  { pose proof (held_avail n _ _ Hh) as Hav.
    rewrite <- (held_live_eq n _ _ Hh) in Hav.
    pose proof (contents_length (duo_buf d)) as Hl.
    rewrite Hc, length_app in Hl. cbn [length] in Hl. unfold chan_len in Hav.
    unfold acquire, recv.
    destruct (queue (avail (duo_buf d))); [cbn [length] in Hav; lia | eauto]. }
  pose proof (held_acquire n 0 _ _ Hh Hacq) as Hh1.
  pose proof (duo_run_step s0 d _ Hrun (duo_recv d ByPop plan b1 Htok Hplan Hacq)) as Hrun1.
  pose proof (Pop_locked_eq n (0 + 1) b1 Hh1 ltac:(lia)) as Hpop. cbv zeta in Hpop.
  pose proof (Pop_locked_back n (0 + 1) b1 _ _ Hh1 ltac:(lia) Hpop) as Hback.
  rewrite (acquire_contents _ _ Hacq), Hc in Hback.
  apply app_inj_tail in Hback as [Hl Hx].
  pose proof (duo_run_step s0 _ _ Hrun1
                (duo_Pop (mkDuo b1 (duo_world d) (duo_todo d) plan (Some ByPop) (duo_got d))
                   _ _ eq_refl Hpop)) as Hrun2.
  cbn [duo_buf duo_world duo_todo duo_plan duo_token duo_got] in Hrun2.
  eexists. split; [exact Hrun2 |]. cbn. rewrite <- Hx. repeat split; auto.
Qed.

(** The consumer pops everything that is queued. *)
Lemma sched_Pop_all l : forall d plan,
  duo_run s0 d -> duo_token d = None ->
  duo_plan d = replicate (length l) ByPop ++ plan ->
  contents (duo_buf d) = l ->
  exists d',
    duo_run s0 d' /\ duo_token d' = None /\ duo_plan d' = plan /\
    duo_todo d' = duo_todo d /\ duo_got d' = duo_got d ++ rev l /\
    contents (duo_buf d') = [].
Proof.
  induction l as [| x l IH] using rev_ind; intros d plan Hrun Htok Hplan Hc.
  - exists d. cbn. rewrite app_nil_r. repeat split; auto.
  - rewrite length_app, Nat.add_1_r in Hplan. cbn [replicate app] in Hplan.
    destruct (sched_one_Pop d l x _ Hrun Htok Hplan Hc)
      as (d1 & Hr1 & Hk1 & Hp1 & Ht1 & Hg1 & Hc1).
    destruct (IH d1 plan Hr1 Hk1 Hp1 Hc1) as (d' & Hr' & Hk' & Hp' & Ht' & Hg' & Hc').
    exists d'. repeat split; try assumption; try congruence.
    rewrite Hg', Hg1, rev_unit, <- app_assoc. reflexivity.
Qed.

(** The consumer pops each value as soon as it has been pushed. *)
Lemma sched_alternate todo : forall d plan,
  duo_run s0 d -> duo_todo d = todo -> duo_token d = None ->
  duo_plan d = replicate (length todo) ByPop ++ plan ->
  contents (duo_buf d) = [] ->
  exists d',
    duo_run s0 d' /\ duo_todo d' = [] /\ duo_token d' = None /\ duo_plan d' = plan /\
    duo_got d' = duo_got d ++ todo /\ contents (duo_buf d') = [].
Proof.
  induction todo as [| v todo IH]; intros d plan Hrun Htodo Htok Hplan Hc.
  - exists d. rewrite app_nil_r. repeat split; auto.
  - pose proof (sched_inv d Hrun) as Hinv. pose proof Hinv as [Hh _ _ _].
    pose proof (duo_room n vs w _ d v todo Hvs Hinv Htodo) as Hroom.
    pose proof (NBPush_eq_held n _ _ v (duo_world d) Hh) as Heq. cbv zeta in Heq.
    destruct (Z.eqb_spec ((pos (duo_buf d) + 1) mod n) (start (duo_buf d)));
      [contradiction |].
    destruct (NBPush_room_held n _ _ v _ _ _ Hh Hroom Heq) as [Hc1 _].
    pose proof (duo_run_step s0 d _ Hrun (duo_push d v todo _ _ Htodo Heq)) as Hrun1.
    rewrite Hc in Hc1. cbn [app length replicate] in Hc1, Hplan.
    destruct (sched_one_Pop _ [] v _ Hrun1 Htok Hplan Hc1)
      as (d2 & Hr2 & Hk2 & Hp2 & Ht2 & Hg2 & Hc2).
    cbn [duo_todo duo_got] in Ht2, Hg2.
    destruct (IH d2 plan Hr2 Ht2 Hk2 Hp2 Hc2) as (d' & Hr' & Ht' & Hk' & Hp' & Hg' & Hc').
    exists d'. repeat split; try assumption.
    rewrite Hg', Hg2, <- app_assoc. reflexivity.
Qed.

End Schedules.

(** X15: with a consumer that calls [Pop] while the producer is pushing
    (TestASyncPop, for any values and any capacity that holds them), the
    order of the values it gets depends on the schedule: if all pushes come
    first it gets them newest first, and if each [Pop] follows its push it
    gets them in push order.  Both runs end with both goroutines done and
    the buffer empty. *)
Theorem concurrent_Pop_order_depends_on_schedule n b0 w vs :
  NewCircularBuffer n = Done b0 ->
  Z.of_nat (length vs) <= n - 1 ->
  (exists d,
     duo_run (duo_start b0 w vs (replicate (length vs) ByPop)) d /\
     duo_done d /\ duo_got d = rev vs /\ contents (duo_buf d) = []) /\
  (exists d,
     duo_run (duo_start b0 w vs (replicate (length vs) ByPop)) d /\
     duo_done d /\ duo_got d = vs /\ contents (duo_buf d) = []).
Proof.
  intros Hnew Hvs. assert (0 < n) as Hn by lia.
  set (plan0 := replicate (length vs) (ByPop : removal)).
  pose proof (duo_run_refl (duo_start b0 w vs plan0)) as Hrun0.
  pose proof (contents_New n b0 Hn Hnew) as Hc0.
  split.
  - destruct (sched_push_all n b0 w vs plan0 Hnew Hvs vs _ Hrun0 eq_refl)
      as (d1 & Hr1 & Ht1 & Hp1 & Hk1 & Hg1 & Hc1).
    cbn [duo_start duo_buf duo_plan duo_token duo_got] in *.
    rewrite Hc0 in Hc1. cbn [app] in Hc1.
    destruct (sched_Pop_all n b0 w vs plan0 Hnew Hvs vs d1 [] Hr1 Hk1) as
      (d2 & Hr2 & Hk2 & Hp2 & Ht2 & Hg2 & Hc2);
      [now rewrite app_nil_r | assumption |].
    exists d2. split; [assumption |]. split; [| split; [| assumption]].
    + repeat split; congruence.
    + rewrite Hg2, Hg1. reflexivity.
  - destruct (sched_alternate n b0 w vs plan0 Hnew Hvs vs _ [] Hrun0 eq_refl eq_refl)
      as (d1 & Hr1 & Ht1 & Hk1 & Hp1 & Hg1 & Hc1);
      [cbn; now rewrite app_nil_r | exact Hc0 |].
    exists d1. split; [assumption |]. split; [| split; assumption].
    repeat split; assumption.
Qed.

End CBDuo.


(** ** src/circularbuffer.go: loops from any reachable buffer, and the test helper *)

Section CBMore.
Context {A W : Type}.
Import CB.
Implicit Types (b : CircularBuffer A W) (v : option A) (w : W) (c : config (A:=A) (W:=W)).

(** X16: [verifyIsEmpty] (the helper of the tests) returns what [Empty()]
    returns on every buffer one goroutine can reach, and never panics
    there.  Among interleaving goroutines it panics with its
    desynchronized-state message exactly when [avail] is empty while some
    goroutine holds a token it has received and not yet used. *)
Theorem verifyIsEmpty_panics_only_with_token_in_flight n :
  0 < n ->
  (forall b, reachable n b -> verifyIsEmpty b = Done (Empty b)) /\
  (forall c, running n c ->
     verifyIsEmpty (shared c) =
       if (chan_len (avail (shared c)) =? 0) && (0 <? holders c)
       then Panic "desychronized state"
       else Done (Empty (shared c))).
Proof.
  intros Hn. split.
  - intros b Hr. apply (verifyIsEmpty_eq n). now apply reachable_wf.
  - intros c Hr. destruct (running_held n c Hn Hr) as [Hsz Hm Hlen Hs Hp Hcap Hk Hav].
    unfold verifyIsEmpty, Empty. cbv zeta. unfold chan_len in *.
    destruct (Z.eqb_spec (Z.of_nat (length (queue (avail (shared c))))) 0) as [H0 | H0];
      [| reflexivity].
    rewrite H0 in Hav. cbn [andb].
    destruct (Z.ltb_spec 0 (holders c)) as [Hpos | Hzero];
      destruct (Z.eqb_spec (pos (shared c)) (start (shared c))) as [Heq | Hne];
      cbn [negb]; try reflexivity; exfalso.
    + rewrite Heq in Hav. mod_split; lia.
    + apply Hne. mod_split; lia.
Qed.

(** X18: a loop of [NBPush] calls on any reachable buffer holding the
    items [q]: of [q] followed by the pushed values, the buffer keeps the
    newest [n - 1] in order, and the callback, when set, is handed the
    older ones, oldest first. *)
Theorem NBPush_loop_keeps_newest n b vs w :
  0 < n -> reachable n b ->
  let k := (length (contents b) + length vs - Z.to_nat (n - 1))%nat in
  exists b',
    NBPush_all vs b w = Done (b', deliver (Evict b) (take k (contents b ++ vs)) w) /\
    contents b' = drop k (contents b ++ vs) /\
    Z.of_nat (length (contents b')) = Z.min (Z.of_nat (length (contents b ++ vs))) (n - 1).
Proof.
  intros Hn Hr k. pose proof (reachable_wf n b Hn Hr) as Hwf.
  destruct (NBPush_all_spec n vs b w Hwf) as (b' & Hpush & Hwf' & Hc & _).
  exists b'. split; [exact Hpush |]. split; [exact Hc |].
  fold k in Hc. rewrite Hc, length_drop, length_app. subst k.
  pose proof (contents_length b) as Hl. pose proof (live_bound n b Hwf). lia.
Qed.

(** X19: as many [Get] calls as there are queued items empty any reachable
    buffer and return the items oldest first; as many [Pop] calls return
    them newest first; either way the buffer then reports empty and one
    more [Get] or [Pop] waits. *)
Theorem removals_drain_the_buffer n b :
  0 < n -> reachable n b ->
  (exists b', Get_n (length (contents b)) b = Done (contents b, b') /\
              Empty b' = true /\ Get b' = Block /\ Pop b' = Block) /\
  (exists b', Pop_n (length (contents b)) b = Done (rev (contents b), b') /\
              Empty b' = true /\ Get b' = Block /\ Pop b' = Block).
Proof.
  intros Hn Hr. pose proof (reachable_wf n b Hn Hr) as Hwf.
  assert (forall b', wf n b' -> contents b' = [] ->
            Empty b' = true /\ Get b' = Block /\ Pop b' = Block) as Hempty.
  { intros b' Hwf' Hc. split; [now apply (Empty_iff n b' Hwf') |].
    apply (contents_nil_iff n b' Hwf') in Hc.
    rewrite (Get_eq n b' Hwf'), (Pop_eq n b' Hwf'), Hc, Z.eqb_refl. split; reflexivity. }
  split.
  - destruct (Get_n_all n (contents b) b Hwf eq_refl) as (b' & Hget & Hwf' & Hc & _).
    exists b'. split; [exact Hget | now apply Hempty].
  - destruct (Pop_n_all n (contents b) b Hwf eq_refl) as (b' & Hpop & Hwf' & Hc & _).
    exists b'. split; [exact Hpop | now apply Hempty].
Qed.

End CBMore.


(** ** The further properties at concrete buffers *)

Lemma reachable_full3 : CB.reachable 3 Ex.full3.
Proof.
  apply (CB.reach_NBPush 3 Ex.one3 (Some 8) [] Ex.full3 []); [exact reachable_one3 |].
  reflexivity.
Qed.

Lemma p2_reachable_one3 : Rev.P2.reachable 3 ExRev.one3.
Proof.
  apply (Rev.P2.reach_NBPush 3 ExRev.fresh3 (Some 7) Nil ExRev.one3).
  - apply Rev.P2.reach_New. reflexivity.
  - reflexivity.
Qed.

Lemma p2_reachable_full3 : Rev.P2.reachable 3 ExRev.full3.
Proof.
  apply (Rev.P2.reach_NBPush 3 ExRev.one3 (Some 8) Nil ExRev.full3);
    [exact p2_reachable_one3 | reflexivity].
Qed.

Lemma p1_reachable_one3 : Rev.P1.reachable 3 ExRev.one3.
Proof.
  apply (Rev.P1.reach_NBPush 3 ExRev.fresh3 (Some 7) Nil ExRev.one3).
  - apply Rev.P1.reach_New. reflexivity.
  - reflexivity.
Qed.

Lemma running_taken3 : CB.running 3 (CB.mkConfig Ex.taken3 (0 + 1)).
Proof.
  apply (CB.running_step 3 (CB.mkConfig Ex.one3 0)).
  - apply reachable_running. exact reachable_one3.
  - apply (CB.step_acquire (CB.mkConfig Ex.one3 0) Ex.taken3). reflexivity.
Qed.

(** C3, refuted as stated: a goroutine in [Get] on a buffer of capacity 3
    holding one item has received from [avail] and not yet taken the lock;
    [len(b.avail)] is 0 while [(3 + pos - start) mod 3] is 1. *)
Lemma avail_lags_behind_a_held_token :
  CB.running 3 (CB.mkConfig Ex.taken3 (0 + 1)) /\
  CB.acquire Ex.one3 = Done Ex.taken3 /\
  chan_len (CB.avail Ex.taken3) = 0 /\
  (3 + CB.pos Ex.taken3 - CB.start Ex.taken3) mod 3 = 1 /\
  ~ CB.counter_ok 3 Ex.taken3.
Proof.
  split; [exact running_taken3 |]. split; [reflexivity |].
  split; [reflexivity |]. split; [reflexivity |].
  intros [H _]. discriminate H.
Qed.

Lemma avail_and_held_tokens_count_used_cells_witness :
  0 < 3 /\
  CB.running 3 (CB.mkConfig Ex.taken3 (0 + 1)) /\
  chan_len (CB.avail Ex.taken3) + (0 + 1) =
    (3 + CB.pos Ex.taken3 - CB.start Ex.taken3) mod 3 /\
  CB.reachable 3 Ex.one3 /\ CB.counter_ok 3 Ex.one3.
Proof.
  split; [lia |]. split; [exact running_taken3 |].
  destruct (avail_and_held_tokens_count_used_cells (A:=Z) (W:=list (option Z)) 3)
    as [Hrun Hseq]; [lia |].
  split; [apply (Hrun _ running_taken3) |].
  split; [exact reachable_one3 |].
  apply (Hseq _ reachable_one3).
Defined.

Lemma NBPush_appends_when_room_witness :
  0 < 3 /\ CB.reachable 3 Ex.one3 /\ chan_len (CB.avail Ex.one3) < 3 - 1 /\
  exists b',
    CB.NBPush (Some 8) Ex.one3 [] = Done (b', []) /\
    CB.contents b' = CB.contents Ex.one3 ++ [Some 8] /\
    chan_len (CB.avail b') = chan_len (CB.avail Ex.one3) + 1 /\
    CB.Evict b' = CB.Evict Ex.one3.
Proof.
  split; [lia |]. split; [exact reachable_one3 |]. split; [reflexivity |].
  apply (NBPush_appends_when_room 3 Ex.one3 (Some 8) []);
    [lia | exact reachable_one3 | reflexivity].
Defined.

Lemma NBPush_evicts_oldest_when_full_witness :
  0 < 3 /\ CB.reachable 3 Ex.full3 /\ chan_len (CB.avail Ex.full3) = 3 - 1 /\
  exists e rest b',
    CB.contents Ex.full3 ++ [Some 9] = e :: rest /\
    CB.NBPush (Some 9) Ex.full3 [] =
      Done (b', match CB.Evict Ex.full3 with Some f => f e [] | None => [] end) /\
    CB.contents b' = rest /\ CB.avail b' = CB.avail Ex.full3 /\
    CB.Evict b' = CB.Evict Ex.full3.
Proof.
  split; [lia |]. split; [exact reachable_full3 |]. split; [reflexivity |].
  apply (NBPush_evicts_oldest_when_full 3 Ex.full3 (Some 9) []);
    [lia | exact reachable_full3 | reflexivity].
Defined.

Lemma Get_takes_oldest_witness :
  0 < 3 /\ CB.reachable 3 Ex.one3 /\ CB.Empty Ex.one3 = false /\
  exists v rest b',
    CB.contents Ex.one3 = v :: rest /\ CB.Get Ex.one3 = Done (v, b') /\
    CB.contents b' = rest /\
    chan_len (CB.avail b') = chan_len (CB.avail Ex.one3) - 1.
Proof.
  split; [lia |]. split; [exact reachable_one3 |]. split; [reflexivity |].
  destruct (Get_takes_oldest 3 Ex.one3) as [_ H]; [lia | exact reachable_one3 |].
  apply H. reflexivity.
Defined.

Lemma Pop_takes_newest_witness :
  0 < 3 /\ CB.reachable 3 Ex.one3 /\ CB.Empty Ex.one3 = false /\
  exists v rest b',
    CB.contents Ex.one3 = rest ++ [v] /\ CB.Pop Ex.one3 = Done (v, b') /\
    CB.contents b' = rest /\
    chan_len (CB.avail b') = chan_len (CB.avail Ex.one3) - 1.
Proof.
  split; [lia |]. split; [exact reachable_one3 |]. split; [reflexivity |].
  destruct (Pop_takes_newest 3 Ex.one3) as [_ H]; [lia | exact reachable_one3 |].
  apply H. reflexivity.
Defined.

Lemma capacity_one_holds_nothing_witness :
  CB.reachable 1 Ex.fresh1 /\
  CB.contents Ex.fresh1 = [] /\ CB.Empty Ex.fresh1 = true /\
  CB.Get Ex.fresh1 = Block /\ CB.Pop Ex.fresh1 = Block.
Proof.
  assert (CB.reachable 1 Ex.fresh1) as Hr by (apply CB.reach_New; reflexivity).
  split; [exact Hr |].
  destruct (capacity_one_holds_nothing Ex.fresh1 Hr) as (Hc & He & Hg & Hp & _).
  repeat split; assumption.
Defined.

Lemma Pop_undoes_NBPush_witness :
  2 <= 3 /\ CB.reachable 3 Ex.one3 /\
  exists b1 w1 b2,
    CB.NBPush (Some 8) Ex.one3 [] = Done (b1, w1) /\
    CB.Pop b1 = Done (Some 8, b2) /\
    CB.contents b2 =
      if chan_len (CB.avail Ex.one3) =? 3 - 1
      then tail (CB.contents Ex.one3) else CB.contents Ex.one3.
Proof.
  split; [lia |]. split; [exact reachable_one3 |].
  apply (Pop_undoes_NBPush 3 Ex.one3 (Some 8) []); [lia | exact reachable_one3].
Defined.

Lemma NBPush_evicts_iff_Length_is_max_witness :
  0 < 3 /\ Rev.P2.reachable 3 ExRev.one3 /\
  Rev.P2.NBPush (Some 8) ExRev.one3 = Done (Nil, ExRev.full3) /\
  (Rev.evicting ExRev.one3 = true <-> Rev.P2.Length ExRev.one3 = 3 - 1) /\
  Rev.P2.Length ExRev.full3 = Z.min (Rev.P2.Length ExRev.one3 + 1) (3 - 1).
Proof.
  split; [lia |]. split; [exact p2_reachable_one3 |]. split; [reflexivity |].
  destruct (NBPush_evicts_iff_Length_is_max 3 ExRev.one3 (Some 8) Nil ExRev.full3)
    as (H1 & H2 & _); [lia | exact p2_reachable_one3 | reflexivity |].
  split; assumption.
Defined.

Lemma NBPush_result_tells_eviction_witness :
  0 < 3 /\ Rev.P2.reachable 3 ExRev.full3 /\
  Forall (fun x : option Z => x <> Nil) (Rev.contents ExRev.full3) /\
  Rev.P2.NBPush (Some 9) ExRev.full3 = Done (Some 7, ExRev.pushed3) /\
  (Some 7 <> Nil <-> Rev.P2.Length ExRev.full3 = 3 - 1) /\
  Forall (fun x : option Z => x <> Nil) (Rev.contents ExRev.pushed3).
Proof.
  assert (Forall (fun x : option Z => x <> Nil) (Rev.contents ExRev.full3)) as Hall
    by (repeat constructor; discriminate).
  split; [lia |]. split; [exact p2_reachable_full3 |]. split; [exact Hall |].
  split; [reflexivity |].
  destruct (NBPush_result_tells_eviction 3 ExRev.full3 9 (Some 7) ExRev.pushed3)
    as (H1 & _ & H3); [lia | exact p2_reachable_full3 | exact Hall | reflexivity |].
  split; assumption.
Defined.

Lemma p1_Get_clears_the_wrong_cell_witness :
  0 < 3 /\ Rev.P1.reachable 3 ExRev.one3 /\
  Rev.P1.Get ExRev.one3 = Done (Some 7, ExRev.got3) /\
  Rev.contents ExRev.one3 = Some 7 :: Rev.contents ExRev.got3 /\
  Rev.buffer ExRev.got3 !! Z.to_nat (Rev.start ExRev.one3) = Some (Some 7).
Proof.
  split; [lia |]. split; [exact p1_reachable_one3 |]. split; [reflexivity |].
  destruct (p1_Get_clears_the_wrong_cell 3 ExRev.one3 (Some 7) ExRev.got3)
    as (H1 & H2 & _); [lia | exact p1_reachable_one3 | reflexivity |].
  split; assumption.
Defined.

Lemma part_001_and_part_002_return_the_same_witness :
  Rev.P2.NewCircularBuffer 3 = Done ExRev.fresh3 /\
  Rev.P1.NewCircularBuffer 3 = Done ExRev.fresh3 /\
  Bridge.returned
    (Rev.P1.do_calls [Rev.CallNBPush (Some 7); Rev.CallGet; Rev.CallPop] ExRev.fresh3) =
  Bridge.returned
    (Rev.P2.do_calls [Rev.CallNBPush (Some 7); Rev.CallGet; Rev.CallPop] ExRev.fresh3).
Proof.
  split; [reflexivity |].
  apply (part_001_and_part_002_return_the_same 3
           [Rev.CallNBPush (Some 7); Rev.CallGet; Rev.CallPop] ExRev.fresh3).
  reflexivity.
Defined.

Lemma concurrent_removal_loses_nothing_witness :
  CB.NewCircularBuffer 3 = Done Ex.fresh3 /\
  Z.of_nat (length [Some 7; Some 8]) <= 3 - 1 /\
  CB.duo_run Ex.getters3 Ex.getters3 /\
  Permutation
    (CB.duo_got Ex.getters3 ++ CB.contents (CB.duo_buf Ex.getters3) ++
     CB.duo_todo Ex.getters3) [Some 7; Some 8] /\
  CB.duo_world Ex.getters3 = [].
Proof.
  split; [reflexivity |]. split; [cbn; lia |]. split; [apply CB.duo_run_refl |].
  destruct (concurrent_removal_loses_nothing 3 Ex.fresh3 [] [Some 7; Some 8]
              [CB.ByGet; CB.ByGet] Ex.getters3) as (H1 & H2 & _);
    [reflexivity | cbn; lia | apply CB.duo_run_refl |].
  split; assumption.
Defined.

Lemma concurrent_Get_keeps_order_witness :
  CB.NewCircularBuffer 3 = Done Ex.fresh3 /\
  Z.of_nat (length [Some 7; Some 8]) <= 3 - 1 /\
  CB.duo_run Ex.getters3 Ex.getters3 /\
  CB.duo_got Ex.getters3 ++ CB.contents (CB.duo_buf Ex.getters3) ++
    CB.duo_todo Ex.getters3 = [Some 7; Some 8].
Proof.
  split; [reflexivity |]. split; [cbn; lia |]. split; [apply CB.duo_run_refl |].
  destruct (concurrent_Get_keeps_order 3 Ex.fresh3 [] [Some 7; Some 8] 2 Ex.getters3)
    as [H1 _]; [reflexivity | cbn; lia | apply CB.duo_run_refl |].
  exact H1.
Defined.


Lemma concurrent_Pop_order_depends_on_schedule_witness :
  CB.NewCircularBuffer 3 = Done Ex.fresh3 /\
  Z.of_nat (length [Some 7; Some 8]) <= 3 - 1 /\
  (exists d,
     CB.duo_run (CB.duo_start Ex.fresh3 [] [Some 7; Some 8] [CB.ByPop; CB.ByPop]) d /\
     CB.duo_done d /\ CB.duo_got d = [Some 8; Some 7] /\
     CB.contents (CB.duo_buf d) = []) /\
  (exists d,
     CB.duo_run (CB.duo_start Ex.fresh3 [] [Some 7; Some 8] [CB.ByPop; CB.ByPop]) d /\
     CB.duo_done d /\ CB.duo_got d = [Some 7; Some 8] /\
     CB.contents (CB.duo_buf d) = []).
Proof.
  split; [reflexivity |]. split; [cbn; lia |].
  apply (concurrent_Pop_order_depends_on_schedule 3 Ex.fresh3 [] [Some 7; Some 8]);
    [reflexivity | cbn; lia].
Defined.

Lemma verifyIsEmpty_panics_only_with_token_in_flight_witness :
  0 < 3 /\
  CB.verifyIsEmpty Ex.one3 = Done (CB.Empty Ex.one3) /\
  CB.verifyIsEmpty Ex.taken3 = Panic "desychronized state".
Proof.
  split; [lia |].
  destruct (verifyIsEmpty_panics_only_with_token_in_flight (A:=Z) (W:=list (option Z)) 3)
    as [Hseq Hrun]; [lia |].
  split; [apply Hseq; exact reachable_one3 |].
  apply (Hrun _ running_taken3).
Defined.

Lemma tokens_in_flight_witness :
  0 < 3 /\ CB.running 3 (CB.mkConfig Ex.taken3 (0 + 1)) /\
  chan_len (CB.avail Ex.taken3) + (0 + 1) = (3 + CB.pos Ex.taken3 - CB.start Ex.taken3) mod 3.
Proof.
  split; [lia |]. split; [exact running_taken3 |].
  destruct (tokens_in_flight 3 (CB.mkConfig Ex.taken3 (0 + 1))) as [H _];
    [lia | exact running_taken3 |].
  exact H.
Defined.

Lemma NBPush_loop_keeps_newest_witness :
  0 < 3 /\ CB.reachable 3 Ex.one3 /\
  exists b',
    CB.NBPush_all [Some 8; Some 9] (CB.set_Evict (Some Ex.record) Ex.one3) [] =
      Done (b', [Some 7]) /\
    CB.contents b' = [Some 8; Some 9].
Proof.
  split; [lia |]. split; [exact reachable_one3 |].
  destruct (NBPush_loop_keeps_newest 3 (CB.set_Evict (Some Ex.record) Ex.one3)
              [Some 8; Some 9] []) as (b' & H1 & H2 & _);
    [lia | apply CB.reach_set_Evict; exact reachable_one3 |].
  exists b'. split; [exact H1 | exact H2].
Defined.

Lemma removals_drain_the_buffer_witness :
  0 < 3 /\ CB.reachable 3 Ex.full3 /\
  (exists b', CB.Get_n (length (CB.contents Ex.full3)) Ex.full3 =
                Done (CB.contents Ex.full3, b') /\ CB.Empty b' = true) /\
  (exists b', CB.Pop_n (length (CB.contents Ex.full3)) Ex.full3 =
                Done (rev (CB.contents Ex.full3), b') /\ CB.Empty b' = true).
Proof.
  split; [lia |]. split; [exact reachable_full3 |].
  destruct (removals_drain_the_buffer 3 Ex.full3) as [(b1 & H1 & E1 & _) (b2 & H2 & E2 & _)];
    [lia | exact reachable_full3 |].
  split; [exists b1 | exists b2]; split; assumption.
Defined.
